(** * 3Poker rules engine: src/services/gameLogic.ts

    A shallow embedding of the deck builder ([createDeck], [shuffleDeck]),
    the hand valuator ([calculateHandValue]), the round settler
    ([getRoundScores]) and the bot policy ([decideBotAction]), followed by
    the properties the specification states about them.

    Conventions of the embedding.
    - A JavaScript [number] that holds a card value, a score or a player id
      is an integer here ([Z]); the one non-integer the code can produce,
      the [Infinity] of [Math.min()] without arguments, is kept in [num].
    - A property access on [undefined], or a call of what is not a
      function, throws a [TypeError]; functions that can reach one return a
      [result].
    - Arrays are lists; [a[i]] is the list lookup [a !! i].
    - [Math.random()] is a double of the interval [0,1), a [draw], and its
      product with an integer is rounded to a double before the floor is
      taken. *)

From Stdlib Require Import ZArith Ascii.
From stdpp Require Import base list strings sorting pretty numbers.

Local Open Scope Z_scope.
#[local] Set Warnings "-clear-no-such-hyp".

(** ** Data model (types.ts: CardData, Player, BotAction) *)

(** [Rank] and [Suit] are declared in types.ts; at run time their members
    are strings: the source uses a rank as a property key of a
    [Record<string, CardData[]>] and splices both into the card id.
    The field [id] of a card is [card_id] and that of a player [player_id]
    ([id] is the identity function of the library). *)
Record CardData := {
  card_id : string;
  suit : string;
  rank : string;
  value : Z
}.

Record Player := {
  player_id : Z;
  hand : list CardData
}.

Inductive BotAction :=
  | TOSS (cardIds : list string)
  | SHOW
  | DISCARD (cardIds : list string).

(** The object literal [{ playerId, roundScore }] returned by the settler. *)
Record RoundScore := {
  playerId : Z;
  roundScore : Z
}.

(** The object literal [{ id, val }] of [handValues]. *)
Record HandValue := {
  hv_id : Z;
  val : Z
}.

Global Instance CardData_eq_dec : EqDecision CardData.
Proof. solve_decision. Defined.
Global Instance Player_eq_dec : EqDecision Player.
Proof. solve_decision. Defined.
Global Instance BotAction_eq_dec : EqDecision BotAction.
Proof. solve_decision. Defined.
Global Instance RoundScore_eq_dec : EqDecision RoundScore.
Proof. solve_decision. Defined.

(** ** Exceptions *)

Inductive result (A : Type) :=
  | Ok (a : A)
  | TypeError.
Arguments Ok {A} a.
Arguments TypeError {A}.

Definition rbind {A B} (m : result A) (k : A → result B) : result B :=
  match m with
  | Ok a => k a
  | TypeError => TypeError
  end.

Notation "'let?' x := m 'in' k" := (rbind m (λ x, k))
  (at level 10, x name, m at level 100, k at level 200,
   format "'[v' 'let?'  x  :=  m  'in' '/' k ']'").

(** [Array.prototype.find] with a callback that may throw. *)
Fixpoint find_r {A} (f : A → result bool) (l : list A) : result (option A) :=
  match l with
  | [] => Ok None
  | x :: l' =>
      let? b := f x in
      if b then Ok (Some x) else find_r f l'
  end.

(** [Array.prototype.map] with a callback that may throw. *)
Fixpoint map_r {A B} (f : A → result B) (l : list A) : result (list B) :=
  match l with
  | [] => Ok []
  | x :: l' =>
      let? y := f x in
      let? ys := map_r f l' in
      Ok (y :: ys)
  end.

(** ** Scoring: calculateHandValue *)

(** [card.rank === joker.rank && card.suit === joker.suit] *)
Definition is_joker (card joker : CardData) : bool :=
  bool_decide (rank card = rank joker) && bool_decide (suit card = suit joker).

Definition calculateHandValue (hand : list CardData) (joker : option CardData) : Z :=
  match joker with
  | None => foldl (λ sum card, sum + value card) 0 hand
  | Some joker =>
      foldl (λ sum card,
               if is_joker card joker then sum + 0 else sum + value card)
            0 hand
  end.

(** Sum of a sequence of integers, the reading of "the sum over all cards". *)
Fixpoint sumZ (l : list Z) : Z :=
  match l with
  | [] => 0
  | v :: l' => v + sumZ l'
  end.

(** What one card contributes to a hand under a joker. *)
Definition contribution (joker : option CardData) (card : CardData) : Z :=
  match joker with
  | Some j =>
      if decide (rank card = rank j ∧ suit card = suit j) then 0 else value card
  | None => value card
  end.

(** ** Scoring: getRoundScores *)

(** [players[callerIndex]]: an element for an index inside the array,
    [undefined] for any other number. *)
Definition at_index {A} (l : list A) (i : Z) : option A :=
  if decide (0 ≤ i) then l !! Z.to_nat i else None.

(** [players[callerIndex].id]: reading [id] of [undefined] throws. *)
Definition caller_id (players : list Player) (callerIndex : Z) : result Z :=
  match at_index players callerIndex with
  | Some p => Ok (player_id p)
  | None => TypeError
  end.

(** The value of [Math.min]. *)
Inductive num :=
  | Finite (z : Z)
  | Infinity.

Global Instance num_eq_dec : EqDecision num.
Proof. solve_decision. Defined.

(** [Math.min(...values)]: [Infinity] when there is no argument. *)
Definition Math_min (values : list Z) : num :=
  foldl (λ m v, match m with
                | Infinity => Finite v
                | Finite z => Finite (Z.min z v)
                end) Infinity values.

(** [x?.val || 0]: 0 when nothing was found, and when the value found is
    the falsy number 0. *)
Definition val_or_zero (found : option HandValue) : Z :=
  match found with
  | Some h => if decide (val h = 0) then 0 else val h
  | None => 0
  end.

Definition getRoundScores (players : list Player) (callerIndex : Z)
    (joker : option CardData) : result (list RoundScore) :=
  let handValues :=
    map (λ p, {| hv_id := player_id p;
                 val := calculateHandValue (hand p) joker |}) players in
  let? found :=
    find_r (λ h, let? cid := caller_id players callerIndex in
                 Ok (bool_decide (hv_id h = cid))) handValues in
  let callerValue := val_or_zero found in
  let lowestValue := Math_min (map val handValues) in
  let winnersCount :=
    length (filter (λ h, Finite (val h) = lowestValue) handValues) in
  let callerIsLowest := bool_decide (Finite callerValue = lowestValue) in
  map_r (λ p,
    let handVal := calculateHandValue (hand p) joker in
    let? cid := caller_id players callerIndex in
    let roundScore :=
      if bool_decide (player_id p = cid) then
        if callerIsLowest && bool_decide (winnersCount = 1%nat) then 0
        else if callerIsLowest && bool_decide (1 < winnersCount)%nat then 25
        else 50
      else handVal in
    Ok {| playerId := player_id p; roundScore := roundScore |}) players.

(** Reading of "the minimum hand value": attained, and below all others. *)
Definition is_minimum (m : Z) (values : list Z) : Prop :=
  m ∈ values ∧ Forall (λ v, m ≤ v) values.

(** Number of entries of [values] equal to [m]. *)
Definition attained (m : Z) (values : list Z) : nat :=
  length (filter (λ v, v = m) values).

(** The three cases of the caller's score. *)
Definition caller_case (callerValue lowest : Z) (winners : nat) : Z :=
  if decide (callerValue = lowest ∧ winners = 1%nat) then 0
  else if decide (callerValue = lowest ∧ (1 < winners)%nat) then 25
  else 50.

(** The player the settler takes for the caller: the first one, in
    [players] order, that carries the caller's id. *)
Definition first_with_id (cid : Z) (players : list Player) : option Player :=
  head (filter (λ p, player_id p = cid) players).

Definition hand_values (players : list Player) (joker : option CardData)
    : list Z :=
  (λ p, calculateHandValue (hand p) joker) <$> players.

(** ** Bot logic: the rank-keyed object *)

(** An ordinary object with string keys, as the list of its own properties
    in creation order. The object of the bot is created empty ([{}]) and
    read at ranks only; [obj_get] looks among the own properties, which is
    all a read finds at a member of [Rank]. The properties that [{}]
    inherits from [Object.prototype], which a read at any other string may
    find, are those of [get_property] and [decideBotAction_proto] below. *)
Definition object (V : Type) := list (string * V).

(** [o[k]] *)
Fixpoint obj_get {V} (o : object V) (k : string) : option V :=
  match o with
  | [] => None
  | (k', v) :: o' => if decide (k' = k) then Some v else obj_get o' k
  end.

(** [o[k] = v]: an existing property keeps its place, a new one is created
    after the others. *)
Fixpoint obj_set {V} (o : object V) (k : string) (v : V) : object V :=
  match o with
  | [] => [(k, v)]
  | (k', v') :: o' =>
      if decide (k' = k) then (k, v) :: o' else (k', v') :: obj_set o' k v
  end.

(** The decimal digits are the characters of codes 48 to 57. *)
Definition digit_of (c : ascii) : option N :=
  let code := N_of_ascii c in
  if decide (48 ≤ code ≤ 57)%N then Some (code - 48)%N else None.

Fixpoint parse_digits (acc : N) (s : string) : option N :=
  match s with
  | EmptyString => Some acc
  | String c s' =>
      match digit_of c with
      | Some d => parse_digits (10 * acc + d)%N s'
      | None => None
      end
  end.

(** The longest prefix of [s] made of decimal digits. *)
Fixpoint digits_prefix (s : string) : string :=
  match s with
  | EmptyString => EmptyString
  | String c s' =>
      match digit_of c with
      | Some _ => String c (digits_prefix s')
      | None => EmptyString
      end
  end.

(** A property key is an array index when it is the canonical decimal
    numeral of an integer in 0 .. 2^32 - 2 (ECMAScript, 6.1.7). *)
Definition array_index (k : string) : option N :=
  match parse_digits 0 k with
  | Some n =>
      if decide (pretty n = k ∧ (n < 2 ^ 32 - 1)%N) then Some n else None
  | None => None
  end.

Definition is_array_index (k : string) : Prop := is_Some (array_index k).

Definition index_le (k1 k2 : string) : Prop :=
  (default 0 (array_index k1) ≤ default 0 (array_index k2))%N.

Global Instance index_le_dec : RelDecision index_le.
Proof. intros k1 k2. unfold index_le. apply _. Defined.

(** The order in which [for (const k in o)] visits the keys of an ordinary
    object (OrdinaryOwnPropertyKeys): the array indices in ascending
    numeric order, then the other strings in creation order. *)
Definition own_keys {V} (o : object V) : list string :=
  merge_sort index_le (filter is_array_index o.*1)
  ++ filter (λ k, ¬ is_array_index k) o.*1.

(** ** Bot logic: decideBotAction *)

(** Body of [for (const card of hand)]. *)
Definition count_card (rankCounts : object (list CardData)) (card : CardData)
    : object (list CardData) :=
  let rankCounts :=
    match obj_get rankCounts (rank card) with
    | None => obj_set rankCounts (rank card) []
    | Some _ => rankCounts
    end in
  match obj_get rankCounts (rank card) with
  | Some cards => obj_set rankCounts (rank card) (cards ++ [card])
  | None => rankCounts
  end.

(** [for (const rank in rankCounts)], over the keys still to visit:
    [Some] action when the loop returns, [None] when it runs to its end. *)
Fixpoint find_pair (rankCounts : object (list CardData)) (keys : list string)
    : result (option BotAction) :=
  match keys with
  | [] => Ok None
  | rank :: keys' =>
      match obj_get rankCounts rank with
      | None => TypeError
      | Some cards =>
          if decide (2 ≤ length cards)%nat then
            match cards !! 0%nat, cards !! 1%nat with
            | Some c0, Some c1 => Ok (Some (TOSS [card_id c0; card_id c1]))
            | _, _ => TypeError
            end
          else find_pair rankCounts keys'
      end
  end.

(** [(c.rank === joker?.rank && c.suit === joker?.suit) ? 0 : c.value] *)
Definition discard_val (joker : option CardData) (c : CardData) : Z :=
  match joker with
  | Some j => if is_joker c j then 0 else value c
  | None => value c
  end.

(** Body of [hand.forEach], on the pair [(highestCard, highestVal)]. *)
Definition keep_highest (joker : option CardData)
    (st : option CardData * Z) (c : CardData) : option CardData * Z :=
  let val := discard_val joker c in
  if decide (val > st.2) then (Some c, val) else st.

Definition decideBotAction (player : Player) (joker : option CardData)
    (tossedThisTurn : bool) : result BotAction :=
  let hand := hand player in
  let currentScore := calculateHandValue hand joker in
  let? toss :=
    (if negb tossedThisTurn then
       let rankCounts := foldl count_card [] hand in
       find_pair rankCounts (own_keys rankCounts)
     else Ok None) in
  match toss with
  | Some action => Ok action
  | None =>
      if decide (currentScore ≤ 5) then Ok SHOW
      else
        let st := foldl (keep_highest joker) (hand !! 0%nat, -1) hand in
        match st.1 with
        | Some highestCard => Ok (DISCARD [card_id highestCard])
        | None => TypeError
        end
  end.

(** ** Bot logic: the prototype of the rank-keyed object *)

(** The properties of [Object.prototype], which [{}] inherits. None is
    enumerable: [for ... in] does not visit them. *)
Definition Object_prototype : list string :=
  ["constructor"; "__defineGetter__"; "__defineSetter__"; "hasOwnProperty";
   "__lookupGetter__"; "__lookupSetter__"; "isPrototypeOf";
   "propertyIsEnumerable"; "toString"; "valueOf"; "__proto__";
   "toLocaleString"].

Definition inherited (k : string) : Prop := k ∈ Object_prototype.

#[global] Instance inherited_dec (k : string) : Decision (inherited k).
Proof. unfold inherited. apply _. Defined.

(** What [o[k]] finds: an own property; or, at a name of
    [Object.prototype], the inherited value (a function, or the prototype
    itself at [__proto__]: truthy, and without a [push]); or nothing. *)
Inductive property (V : Type) :=
  | Own (v : V)
  | Inherited
  | Undefined.
Arguments Own {V} v.
Arguments Inherited {V}.
Arguments Undefined {V}.

Definition get_property {V} (o : object V) (k : string) : property V :=
  match obj_get o k with
  | Some v => Own v
  | None => if decide (inherited k) then Inherited else Undefined
  end.

(** [for (const x of l)] with a body that may throw. *)
Fixpoint foldl_r {A B} (f : A → B → result A) (a : A) (l : list B)
    : result A :=
  match l with
  | [] => Ok a
  | x :: l' =>
      let? a' := f a x in
      foldl_r f a' l'
  end.

(** Body of [for (const card of hand)], for a rank that is any string:
    [!rankCounts[card.rank]] holds of [undefined] only, and
    [rankCounts[card.rank].push(card)] throws when the value found has no
    [push]. *)
Definition count_card_proto (rankCounts : object (list CardData))
    (card : CardData) : result (object (list CardData)) :=
  let rankCounts :=
    match get_property rankCounts (rank card) with
    | Undefined => obj_set rankCounts (rank card) []
    | Own _ | Inherited => rankCounts
    end in
  match get_property rankCounts (rank card) with
  | Own cards => Ok (obj_set rankCounts (rank card) (cards ++ [card]))
  | Inherited | Undefined => TypeError
  end.

(** [decideBotAction] on hands whose ranks are any strings. The second
    loop visits own keys only, where [find_pair] reads what the code
    reads. *)
Definition decideBotAction_proto (player : Player) (joker : option CardData)
    (tossedThisTurn : bool) : result BotAction :=
  let hand := hand player in
  let currentScore := calculateHandValue hand joker in
  let? toss :=
    (if negb tossedThisTurn then
       let? rankCounts := foldl_r count_card_proto [] hand in
       find_pair rankCounts (own_keys rankCounts)
     else Ok None) in
  match toss with
  | Some action => Ok action
  | None =>
      if decide (currentScore ≤ 5) then Ok SHOW
      else
        let st := foldl (keep_highest joker) (hand !! 0%nat, -1) hand in
        match st.1 with
        | Some highestCard => Ok (DISCARD [card_id highestCard])
        | None => TypeError
        end
  end.

(** What the specification says about the toss, in its own words: the
    rank groups are visited in the order in which the ranks are first seen
    in the hand, and the first group of two or more cards gives its first
    two cards. *)
Definition cards_of_rank (r : string) (hand : list CardData) : list CardData :=
  filter (λ c, rank c = r) hand.

Definition first_seen_ranks (hand : list CardData) : list string :=
  foldl (λ seen c, if decide (rank c ∈ seen) then seen else seen ++ [rank c])
        [] hand.

Definition has_pair (hand : list CardData) : Prop :=
  ∃ r, (2 ≤ length (cards_of_rank r hand))%nat.

Definition first_seen_pair (hand : list CardData) : option (list string) :=
  match list_find (λ r, (2 ≤ length (cards_of_rank r hand))%nat)
                  (first_seen_ranks hand) with
  | Some (_, r) => Some (card_id <$> take 2 (cards_of_rank r hand))
  | None => None
  end.

(** [r] occurs in [ranks], and [r'] does not occur before that place. *)
Definition seen_before (ranks : list string) (r r' : string) : Prop :=
  ∃ l1 l2, ranks = l1 ++ r :: l2 ∧ (r' ∉ l1) ∧ r' ≠ r.

(** The order of the keys of the rank-keyed object of a hand: a rank that
    is an array index ("2" .. "10") comes before one that is not ("A", "J",
    "Q", "K"); two array indices compare as numbers; two other ranks
    compare by first appearance in the hand. *)
Definition key_before (hand : list CardData) (r r' : string) : Prop :=
  match array_index r, array_index r' with
  | Some n, Some n' => (n < n')%N
  | Some _, None => True
  | None, Some _ => False
  | None, None => seen_before (rank <$> hand) r r'
  end.

(** ** Deck management: shuffleDeck *)

(** A value of [Math.random()] is a double of [0, 1): the number
    [numer / 2^scale], with a significand [numer] of at most 53 bits and an
    exponent down to that of the smallest subnormal. *)
Definition unit_double (numer scale : N) : bool :=
  ((numer <? 2 ^ 53) && (numer <? 2 ^ scale) && (scale <=? 1074))%N.

Record draw := {
  numer : N;
  scale : N;
  in_unit : unit_double numer scale = true
}.

Definition denom (u : draw) : N := 2 ^ scale u.

(** The double [numer / 2^scale], and 0 when this is not a double of
    [0, 1). *)
Definition double_of (numer scale : N) : draw :=
  {| numer := if unit_double numer scale then numer else 0;
     scale := if unit_double numer scale then scale else 0;
     in_unit :=
       match unit_double numer scale as b
         return unit_double numer scale = b →
                unit_double (if b then numer else 0) (if b then scale else 0)
                = true
       with
       | true => λ H, H
       | false => λ _, eq_refl
       end eq_refl |}.

(** Rounding of the double product. The exact product of the double
    [numer / 2^scale] and the integer [n] is [m / 2^scale] with
    [m = numer * n]; the double nearest to it keeps the 53 leading bits of
    [m], rounded to nearest, ties to even: it is [round53 m / 2^scale].
    (The exponent only grows, so nothing underflows; [n] is a double
    itself, being below 2^53 for every array.) *)
Definition round53 (m : N) : N :=
  if (m <? 2 ^ 53)%N then m
  else
    let k := (N.log2 m - 52)%N in
    let q := (m `div` 2 ^ k)%N in
    let r := (m `mod` 2 ^ k)%N in
    let half := (2 ^ (k - 1))%N in
    let up := (half <? r)%N || ((r =? half)%N && N.odd q) in
    ((if up then q + 1 else q) * 2 ^ k)%N.

(** [Math.floor(u * n)]: the floor of the rounded product. *)
Definition floor_times (u : draw) (n : nat) : nat :=
  N.to_nat (round53 (numer u * N.of_nat n) `div` denom u).

(** A double that makes the loop draw [j] at index [i] (for [j] in
    [0 .. i]): its product with [i + 1] lies between [j + 1/4] and
    [j + 1/2]. *)
Definition pick (j i : nat) : draw :=
  let n := N.of_nat (i + 1) in
  let t := (N.log2 n + 1)%N in
  double_of (((2 * N.of_nat j + 1) * 2 ^ (t + 1)) `div` n)%N (t + 2)%N.

(** [[a[i], a[j]] = [a[j], a[i]]]: both elements are read, then [a[i]] and
    [a[j]] are written in this order. The loop only swaps inside the array
    ([draws_in_range]), and nothing is written outside it. *)
Definition swap_elems {T} (a : list T) (i j : nat) : list T :=
  match a !! i, a !! j with
  | Some x, Some y => <[j:=x]> (<[i:=y]> a)
  | _, _ => a
  end.

(** Arrays are objects with identity: the store holds their contents, a
    reference is a position in the store. *)
Definition store (T : Type) := list (list T).

Definition alloc {T} (h : store T) (a : list T) : store T * nat :=
  (h ++ [a], length h).

Definition read {T} (h : store T) (r : nat) : list T := default [] (h !! r).

Definition swap {T} (h : store T) (r : nat) (i j : nat) : store T :=
  match h !! r with
  | Some a => <[r:=swap_elems a i j]> h
  | None => h
  end.

(** [for (let i = newDeck.length - 1; i > 0; i--)], entered with the current
    [i]; [calls] counts the calls of [Math.random] made so far and [random]
    gives the value of each call. *)
Fixpoint shuffle_loop {T} (random : nat → draw) (calls : nat)
    (h : store T) (newDeck : nat) (i : nat) : store T :=
  match i with
  | O => h
  | S i' =>
      let j := floor_times (random calls) (i + 1) in
      shuffle_loop random (S calls) (swap h newDeck i j) newDeck i'
  end.

Definition shuffleDeck {T} (random : nat → draw) (h : store T) (deck : nat)
    : store T * nat :=
  let '(h, newDeck) := alloc h (read h deck) in
  (shuffle_loop random 0 h newDeck (length (read h newDeck) - 1), newDeck).

(** The values of [j] the loop entered with [i] draws, for [i], [i - 1],
    ..., 1. *)
Fixpoint draws (random : nat → draw) (calls : nat) (i : nat) : list nat :=
  match i with
  | O => []
  | S i' => floor_times (random calls) (i + 1) :: draws random (S calls) i'
  end.

(** The scheme of the specification: for each index [i] from the last down
    to 1, with the [j] drawn for it, swap the elements at [i] and [j]. *)
Definition fisher_yates {T} (a : list T) (js : list nat) : list T :=
  foldl (λ a ij, swap_elems a ij.1 ij.2) a
        (zip (reverse (seq 1 (length a - 1))) js).

(** ** Deck management: createDeck *)

Section Deck.

(** [SUITS], [RANKS] and [RANK_VALUES] are imported from constants.ts; the
    deck builder is embedded for any value of the three. *)
Variables (SUITS RANKS : list string) (RANK_VALUES : string → Z).

(** The object literal pushed on the deck. *)
Definition new_card (idCounter : nat) (suit rank : string) : CardData :=
  {| card_id := "card-" +:+ pretty idCounter +:+ "-" +:+ rank +:+ "-" +:+ suit;
     suit := suit;
     rank := rank;
     value := RANK_VALUES rank |}.

(** Body of the inner loop, on the pair [(deck, idCounter)]. *)
Definition push_card (suit : string) (st : list CardData * nat)
    (rank : string) : list CardData * nat :=
  (st.1 ++ [new_card st.2 suit rank], S st.2).

(** Invariant of the two loops: the counter is the position of the next
    card, and each card of the deck was made by [new_card] from its
    position. *)
Definition numbered (st : list CardData * nat) : Prop :=
  st.2 = length st.1
  ∧ ∀ (i : nat) c, st.1 !! i = Some c → c = new_card i (suit c) (rank c).

Definition ordered_deck : list CardData :=
  (foldl (λ st suit, foldl (push_card suit) st RANKS) ([], 0%nat) SUITS).1.

Definition createDeck (random : nat → draw) : list CardData :=
  let '(h, deck) := alloc [] ordered_deck in
  let '(h, shuffled) := shuffleDeck random h deck in
  read h shuffled.

End Deck.

(** ** Sample inputs *)

Definition card (id rank suit : string) (value : Z) : CardData :=
  {| card_id := id; suit := suit; rank := rank; value := value |}.

(** Three players whose hands are worth 3, 10 and 8. *)
Definition alice : Player :=
  {| player_id := 1; hand := [card "c1" "A" "S" 1; card "c2" "2" "H" 2] |}.
Definition bob : Player :=
  {| player_id := 2; hand := [card "c3" "10" "S" 10] |}.
Definition carol : Player :=
  {| player_id := 3; hand := [card "c4" "8" "D" 8] |}.

(** A second player registered under id 1, with a hand worth 2. *)
Definition alias : Player :=
  {| player_id := 1; hand := [card "c5" "2" "C" 2] |}.

(** A hand with a pair of 9s followed by a pair of 7s. *)
Definition two_pairs : Player :=
  {| player_id := 4;
     hand := [card "h1" "9" "S" 9; card "h2" "9" "H" 9;
              card "h3" "7" "S" 7; card "h4" "7" "H" 7] |}.

(** A hand without a pair, worth 23, whose highest value is held twice. *)
Definition king_queen : Player :=
  {| player_id := 5;
     hand := [card "k1" "3" "S" 3; card "k2" "K" "H" 10;
              card "k3" "Q" "D" 10] |}.

(** Hands without a pair worth 5 and 6. *)
Definition worth_five : Player :=
  {| player_id := 6; hand := [card "f1" "2" "S" 2; card "f2" "3" "H" 3] |}.
Definition worth_six : Player :=
  {| player_id := 7; hand := [card "s1" "2" "S" 2; card "s2" "4" "H" 4] |}.

(** A small deck: two suits, three ranks, and a source of random numbers
    that always answers 1/2. *)
Definition two_suits : list string := ["S"; "H"]%string.
Definition three_ranks : list string := ["A"; "7"; "10"]%string.
Definition sample_values (rank : string) : Z :=
  if decide (rank = "A"%string) then 1
  else if decide (rank = "7"%string) then 7 else 10.
Definition half : draw := double_of 1 1.

(** The double nearest to 1/3, whose product with 3 rounds to 1, and a
    double just below 16/51, whose product with 51 rounds to 16. *)
Definition third : draw := double_of 6004799503160661 54.
Definition below_16_51 : draw := double_of 1412894000743685 52.

(** A hand with a card whose rank is not a member of [Rank] but a name of
    [Object.prototype]. *)
Definition stray : Player :=
  {| player_id := 8;
     hand := [card "z1" "constructor" "S" 4; card "z2" "9" "H" 9] |}.

(** * Properties *)

(** ** Hand valuator *)

Lemma foldl_add_sumZ {A} (f : A → Z) (l : list A) (a : Z) :
  foldl (λ sum x, sum + f x) a l = a + sumZ (f <$> l).
Proof.
  revert a. induction l as [|x l IH]; intros a; csimpl.
  - lia.
  - rewrite IH. lia.
Qed.

Lemma is_joker_spec card j :
  is_joker card j = true ↔ rank card = rank j ∧ suit card = suit j.
Proof.
  unfold is_joker. rewrite andb_true_iff, !bool_decide_eq_true. tauto.
Qed.

Lemma contribution_joker c j :
  contribution (Some j) c = if is_joker c j then 0 else value c.
Proof.
  unfold contribution. destruct (is_joker c j) eqn:E; case_decide as H; try done.
  - apply is_joker_spec in E. tauto.
  - apply is_joker_spec in H. congruence.
Qed.

Lemma foldl_joker_sumZ j hand a :
  foldl (λ sum card, if is_joker card j then sum + 0 else sum + value card)
        a hand
  = a + sumZ (contribution (Some j) <$> hand).
Proof.
  revert a. induction hand as [|c hand IH]; intros a; [simpl; lia|].
  rewrite fmap_cons. cbn [foldl sumZ].
  rewrite IH, contribution_joker. destruct (is_joker c j); lia.
Qed.

Lemma calculateHandValue_contribution hand joker :
  calculateHandValue hand joker = sumZ (contribution joker <$> hand).
Proof.
  destruct joker as [j|]; unfold calculateHandValue.
  - rewrite foldl_joker_sumZ. lia.
  - rewrite foldl_add_sumZ. change (contribution None) with value. lia.
Qed.

(** C2. Without a joker the value of a hand is the sum of its cards'
    values; with a joker every card whose rank and suit are both the
    joker's counts 0, however many there are, and every other card counts
    its value: the hand is worth what it is worth once all matching cards
    are removed. The valuator is a total function. *)
Theorem calculateHandValue_sum (hand : list CardData) :
  calculateHandValue hand None = sumZ (value <$> hand)
  ∧ ∀ j : CardData,
      calculateHandValue hand (Some j)
      = sumZ ((λ c, if decide (rank c = rank j ∧ suit c = suit j)
                    then 0 else value c) <$> hand)
      ∧ calculateHandValue hand (Some j)
        = sumZ (value <$>
                  filter (λ c, ¬ (rank c = rank j ∧ suit c = suit j)) hand).
Proof.
  split; [apply (calculateHandValue_contribution hand None)|].
  intros j. split; [apply (calculateHandValue_contribution hand (Some j))|].
  rewrite calculateHandValue_contribution.
  induction hand as [|c hand IH]; [done|].
  rewrite filter_cons, fmap_cons. cbn [sumZ]. rewrite IH. unfold contribution.
  destruct (decide (rank c = rank j ∧ suit c = suit j)) as [H|H].
  - rewrite decide_False by tauto. lia.
  - rewrite decide_True by done. rewrite fmap_cons. cbn [sumZ]. lia.
Qed.

(** C9. The value of the empty hand is 0, with or without a joker. *)
Theorem calculateHandValue_empty (joker : option CardData) :
  calculateHandValue [] joker = 0.
Proof. by destruct joker. Qed.

(** ** Round settler *)

Lemma at_index_Some {A} (l : list A) (i : Z) (x : A) :
  at_index l i = Some x ↔ 0 ≤ i ∧ l !! Z.to_nat i = Some x.
Proof. unfold at_index. destruct (decide (0 ≤ i)); intuition congruence. Qed.

Lemma at_index_None {A} (l : list A) (i : Z) :
  at_index l i = None ↔ i < 0 ∨ Z.of_nat (length l) ≤ i.
Proof.
  unfold at_index. case_decide.
  - rewrite lookup_ge_None. lia.
  - intuition lia.
Qed.

Lemma find_r_total {A} (g : A → bool) (l : list A) :
  find_r (λ x, Ok (g x)) l = Ok (head (filter (λ x, g x = true) l)).
Proof.
  induction l as [|x l IH]; [done|].
  cbn [find_r rbind]. rewrite filter_cons.
  destruct (g x) eqn:E.
  - by rewrite decide_True.
  - rewrite decide_False by congruence. done.
Qed.

Lemma map_r_total {A B} (g : A → B) (l : list A) :
  map_r (λ x, Ok (g x)) l = Ok (g <$> l).
Proof.
  induction l as [|x l IH]; [done|].
  cbn [map_r rbind]. by rewrite IH.
Qed.

Lemma Math_min_from (values : list Z) (a : Z) :
  ∃ m, foldl (λ m v, match m with
                     | Infinity => Finite v
                     | Finite z => Finite (Z.min z v)
                     end) (Finite a) values = Finite m
       ∧ is_minimum m (a :: values).
Proof.
  revert a. induction values as [|v values IH]; intros a.
  - exists a. split; [done|]. split; [left|]. repeat constructor. lia.
  - cbn [foldl]. destruct (IH (Z.min a v)) as (m & -> & Hin & Hle).
    exists m. split; [done|].
    apply Forall_cons_1 in Hle as [Hm Hle].
    split.
    + apply elem_of_cons in Hin as [->|Hin].
      * rewrite !elem_of_cons.
        destruct (Z.min_spec a v) as [[_ ->]|[_ ->]]; auto.
      * rewrite !elem_of_cons. auto.
    + repeat constructor; [lia..|done].
Qed.

Lemma Math_min_minimum (values : list Z) :
  values ≠ [] → ∃ m, Math_min values = Finite m ∧ is_minimum m values.
Proof.
  destruct values as [|a values]; [done|]. intros _.
  unfold Math_min. cbn [foldl]. apply Math_min_from.
Qed.

Lemma is_minimum_unique m m' values :
  is_minimum m values → is_minimum m' values → m = m'.
Proof.
  intros [Hin Hle] [Hin' Hle'].
  rewrite list.Forall_forall in Hle, Hle'.
  apply Hle in Hin'. apply Hle' in Hin. lia.
Qed.

Lemma winners_attained players joker m :
  length (filter (λ h, Finite (val h) = Finite m)
            (map (λ p, {| hv_id := player_id p;
                          val := calculateHandValue (hand p) joker |}) players))
  = attained m (hand_values players joker).
Proof.
  unfold attained, hand_values.
  induction players as [|p players IH]; [done|].
  cbn [map]. rewrite fmap_cons, !filter_cons. cbn [val].
  destruct (decide (calculateHandValue (hand p) joker = m)) as [E|E].
  - rewrite decide_True by congruence. cbn [length]. by rewrite IH.
  - rewrite decide_False by congruence. done.
Qed.

Lemma val_or_zero_val h : val_or_zero (Some h) = val h.
Proof. unfold val_or_zero. case_decide; congruence. Qed.

(** The settler on a valid caller index, whatever the ids: everyone who
    carries the caller's id gets the case score, computed from the hand of
    the first such player; everyone else gets the own hand value. *)
Lemma getRoundScores_valid players callerIndex joker caller :
  at_index players callerIndex = Some caller →
  ∃ first lowest,
    first_with_id (player_id caller) players = Some first
    ∧ is_minimum lowest (hand_values players joker)
    ∧ getRoundScores players callerIndex joker
      = Ok ((λ p, {| playerId := player_id p;
                     roundScore :=
                       if decide (player_id p = player_id caller) then
                         caller_case (calculateHandValue (hand first) joker)
                           lowest
                           (attained lowest (hand_values players joker))
                       else calculateHandValue (hand p) joker |})
            <$> players).
Proof.
  intros Hcaller.
  assert (Hin : caller ∈ players).
  { apply at_index_Some in Hcaller as [_ H]. by eapply list_elem_of_lookup_2. }
  assert (Hne : hand_values players joker ≠ []).
  { unfold hand_values. destruct players; [|done]. by apply elem_of_nil in Hin. }
  destruct (Math_min_minimum _ Hne) as (lowest & Hmin & Hlowest).
  assert (Hfirst : is_Some (first_with_id (player_id caller) players)).
  { unfold first_with_id. apply head_is_Some.
    intros Hnil. by apply (filter_nil_not_elem_of _ _ caller Hnil eq_refl). }
  destruct Hfirst as [first Hfirst].
  exists first, lowest. split; [done|]. split; [done|].
  unfold getRoundScores, caller_id. rewrite Hcaller. cbn [rbind].
  rewrite (find_r_total (λ h, bool_decide (hv_id h = player_id caller))).
  cbn [rbind].
  assert (Hfound :
    head (filter (λ h, bool_decide (hv_id h = player_id caller) = true)
            (map (λ p, {| hv_id := player_id p;
                          val := calculateHandValue (hand p) joker |}) players))
    = Some {| hv_id := player_id first;
              val := calculateHandValue (hand first) joker |}).
  { revert Hfirst. unfold first_with_id. clear.
    induction players as [|p players IH]; [done|].
    cbn [map]. rewrite !filter_cons. cbn [hv_id].
    destruct (decide (player_id p = player_id caller)) as [E|E].
    - rewrite decide_True by by apply bool_decide_eq_true. naive_solver.
    - rewrite decide_False by by rewrite bool_decide_eq_true. done. }
  rewrite Hfound, val_or_zero_val. cbn [val].
  change (map val (map ?f players)) with (val <$> (f <$> players)).
  rewrite <- list_fmap_compose.
  change (val ∘ _) with (λ p, calculateHandValue (hand p) joker).
  fold (hand_values players joker). rewrite Hmin.
  rewrite winners_attained.
  rewrite (map_r_total _ players). f_equal.
  apply list_fmap_ext. intros _ p _. f_equal.
  unfold caller_case.
  destruct (decide (player_id p = player_id caller)) as [E|E].
  - rewrite bool_decide_eq_true_2 by done.
    repeat (case_bool_decide || case_decide); simpl;
      repeat match goal with H : Finite _ = Finite _ |- _ => injection H as H end;
      first [done | exfalso; intuition (congruence || lia)].
  - by rewrite bool_decide_eq_false_2.
Qed.

Lemma first_with_id_distinct players k caller :
  NoDup (player_id <$> players) →
  players !! k = Some caller →
  first_with_id (player_id caller) players = Some caller.
Proof.
  intros Hnd Hk.
  destruct (first_with_id (player_id caller) players) as [first|] eqn:Hfirst.
  - unfold first_with_id in Hfirst. apply head_Some_elem_of in Hfirst.
    apply list_elem_of_filter in Hfirst as [Hid Hin].
    apply list_elem_of_lookup in Hin as [k' Hk'].
    assert (k' = k) as ->; [|congruence].
    eapply NoDup_lookup; [exact Hnd| |].
    + rewrite list_lookup_fmap, Hk'. simpl. by rewrite Hid.
    + by rewrite list_lookup_fmap, Hk.
  - unfold first_with_id in Hfirst. apply head_None in Hfirst.
    apply list_elem_of_lookup_2 in Hk.
    by destruct (filter_nil_not_elem_of _ _ caller Hfirst eq_refl).
Qed.

(** C1. With pairwise distinct player ids and a caller index inside
    [players], the settler returns one entry per player, in the order of
    [players] and under the player's id. The entry at the caller's index
    scores 0 when the caller's hand value is the minimum and one player
    attains the minimum, 25 when it is the minimum and more than one
    player attains it, 50 otherwise; every other entry scores the
    player's own hand value. *)
Theorem getRoundScores_distinct_ids
    (players : list Player) (callerIndex : Z) (joker : option CardData)
    (caller : Player) :
  NoDup (player_id <$> players) →
  at_index players callerIndex = Some caller →
  ∃ scores lowest,
    getRoundScores players callerIndex joker = Ok scores
    ∧ length scores = length players
    ∧ playerId <$> scores = player_id <$> players
    ∧ is_minimum lowest (hand_values players joker)
    ∧ ∀ (k : nat) (p : Player), players !! k = Some p →
        roundScore <$> scores !! k
        = Some (if decide (Z.of_nat k = callerIndex)
                then caller_case (calculateHandValue (hand caller) joker)
                       lowest (attained lowest (hand_values players joker))
                else calculateHandValue (hand p) joker).
Proof.
  intros Hnd Hcaller.
  destruct (getRoundScores_valid _ _ joker _ Hcaller)
    as (first & lowest & Hfirst & Hlowest & ->).
  apply at_index_Some in Hcaller as [H0 Hcaller].
  rewrite (first_with_id_distinct _ _ _ Hnd Hcaller) in Hfirst.
  injection Hfirst as <-.
  eexists _, lowest. split; [done|].
  split; [by rewrite length_fmap|].
  split; [by rewrite <- list_fmap_compose|].
  split; [done|].
  intros k p Hk. rewrite list_lookup_fmap, Hk. simpl. f_equal.
  destruct (decide (player_id p = player_id caller)) as [E|E].
  - rewrite decide_True; [done|].
    assert (k = Z.to_nat callerIndex); [|lia].
    eapply NoDup_lookup; [exact Hnd| |].
    + by rewrite list_lookup_fmap, Hk.
    + rewrite list_lookup_fmap, Hcaller. simpl. by rewrite E.
  - rewrite decide_False; [done|].
    intros <-. rewrite Nat2Z.id in Hcaller. congruence.
Qed.

Lemma getRoundScores_distinct_ids_witness :
  ∃ scores lowest,
    getRoundScores [alice; bob; carol] 0 None = Ok scores
    ∧ length scores = 3%nat
    ∧ playerId <$> scores = [1; 2; 3]
    ∧ is_minimum lowest (hand_values [alice; bob; carol] None)
    ∧ ∀ (k : nat) (p : Player), [alice; bob; carol] !! k = Some p →
        roundScore <$> scores !! k
        = Some (if decide (Z.of_nat k = 0)
                then caller_case (calculateHandValue (hand alice) None)
                       lowest
                       (attained lowest (hand_values [alice; bob; carol] None))
                else calculateHandValue (hand p) None).
Proof.
  apply (getRoundScores_distinct_ids [alice; bob; carol] 0 None alice).
  - apply (bool_decide_unpack _). vm_compute. exact I.
  - reflexivity.
Defined.

(** C4, as the code has it. With a caller index outside [players], the
    settler throws when [players] is not empty (the missing caller is not
    given the value 0), and returns the empty result when [players] is
    empty. *)
Theorem getRoundScores_invalid_index
    (players : list Player) (callerIndex : Z) (joker : option CardData) :
  ¬ (0 ≤ callerIndex < Z.of_nat (length players)) →
  getRoundScores players callerIndex joker
  = if decide (players = []) then Ok [] else TypeError.
Proof.
  intros Hidx.
  assert (Hnone : at_index players callerIndex = None).
  { apply at_index_None. lia. }
  destruct players as [|p players]; [done|].
  unfold getRoundScores, caller_id. rewrite Hnone. reflexivity.
Qed.

Lemma getRoundScores_invalid_index_witness :
  getRoundScores [alice; bob; carol] 3 None = TypeError.
Proof.
  apply (getRoundScores_invalid_index [alice; bob; carol] 3 None).
  simpl. lia.
Defined.

(** C4, as stated, fails on the empty sequence: no index is valid there,
    and the settler returns the empty result. *)
Lemma getRoundScores_empty_returns :
  ¬ (0 ≤ 0 < Z.of_nat (length (@nil Player)))
  ∧ getRoundScores [] 0 None = Ok []
  ∧ getRoundScores [] 0 None ≠ TypeError.
Proof. split; [simpl; lia|]. split; [reflexivity|discriminate]. Qed.

(** C10. The settler recognises the caller by id. With a caller index
    inside [players], every player who carries the id of the player at
    that index, the caller included, scores the same one of 0, 25 and 50
    instead of the own hand value; a player with another id scores the own
    hand value. *)
Theorem getRoundScores_caller_by_id
    (players : list Player) (callerIndex : Z) (joker : option CardData)
    (caller : Player) :
  at_index players callerIndex = Some caller →
  ∃ scores case,
    getRoundScores players callerIndex joker = Ok scores
    ∧ case ∈ [0; 25; 50]
    ∧ ∀ (k : nat) (p : Player), players !! k = Some p →
        roundScore <$> scores !! k
        = Some (if decide (player_id p = player_id caller)
                then case
                else calculateHandValue (hand p) joker).
Proof.
  intros Hcaller.
  destruct (getRoundScores_valid _ _ joker _ Hcaller)
    as (first & lowest & Hfirst & Hlowest & ->).
  eexists _, (caller_case (calculateHandValue (hand first) joker) lowest
                (attained lowest (hand_values players joker))).
  split; [done|]. split.
  - unfold caller_case. rewrite !elem_of_cons.
    repeat case_decide; auto.
  - intros k p Hk. by rewrite list_lookup_fmap, Hk.
Qed.

Lemma getRoundScores_caller_by_id_witness :
  ∃ scores case,
    getRoundScores [alice; bob; alias] 0 None = Ok scores
    ∧ case ∈ [0; 25; 50]
    ∧ ∀ (k : nat) (p : Player), [alice; bob; alias] !! k = Some p →
        roundScore <$> scores !! k
        = Some (if decide (player_id p = player_id alice)
                then case
                else calculateHandValue (hand p) None).
Proof.
  apply (getRoundScores_caller_by_id [alice; bob; alias] 0 None alice).
  reflexivity.
Defined.

(** Without distinct ids a player who did not call can lose the own hand
    value: [alias], at index 2, holds the lowest hand (2) and did not call,
    yet scores the 50 of the caller at index 0, whose id it shares. *)
Lemma getRoundScores_duplicate_id :
  getRoundScores [alice; bob; alias] 0 None
  = Ok [ {| playerId := 1; roundScore := 50 |};
         {| playerId := 2; roundScore := 10 |};
         {| playerId := 1; roundScore := 50 |} ]
  ∧ calculateHandValue (hand alias) None = 2.
Proof. split; reflexivity. Qed.

(** ** The rank-keyed object *)

Section object.
Context {V : Type}.
Implicit Types (o : object V) (k : string) (v : V).

Lemma obj_get_None o k : obj_get o k = None ↔ k ∉ o.*1.
Proof.
  induction o as [|[k' v'] o IH]; csimpl.
  - split; [intros _; apply not_elem_of_nil | done].
  - rewrite not_elem_of_cons. destruct (decide (k' = k)); [naive_solver|].
    rewrite IH. naive_solver.
Qed.

Lemma obj_get_set_eq o k v : obj_get (obj_set o k v) k = Some v.
Proof.
  induction o as [|[k' v'] o IH]; simpl.
  - by rewrite decide_True.
  - destruct (decide (k' = k)); simpl.
    + by rewrite decide_True.
    + by rewrite decide_False.
Qed.

Lemma obj_get_set_ne o k k' v :
  k ≠ k' → obj_get (obj_set o k v) k' = obj_get o k'.
Proof.
  intros Hne. induction o as [|[k0 v0] o IH]; simpl.
  - by rewrite decide_False.
  - destruct (decide (k0 = k)) as [->|]; simpl.
    + by rewrite !decide_False.
    + by rewrite IH.
Qed.

Lemma obj_set_keys o k v :
  (obj_set o k v).*1 = if decide (k ∈ o.*1) then o.*1 else o.*1 ++ [k].
Proof.
  induction o as [|[k0 v0] o IH]; csimpl.
  - done.
  - destruct (decide (k0 = k)) as [->|Hne]; csimpl.
    + rewrite decide_True; [done|left].
    + rewrite IH. destruct (decide (k ∈ o.*1)) as [Hin|Hin].
      * rewrite decide_True; [done|by right].
      * rewrite decide_False; [done|]. rewrite elem_of_cons. naive_solver.
Qed.

End object.

Lemma count_card_get o c r :
  obj_get (count_card o c) r
  = if decide (rank c = r) then Some (default [] (obj_get o r) ++ [c])
    else obj_get o r.
Proof.
  unfold count_card. destruct (decide (rank c = r)) as [<-|Hne].
  - destruct (obj_get o (rank c)) as [cards|] eqn:E.
    + rewrite E. by rewrite obj_get_set_eq.
    + by rewrite !obj_get_set_eq.
  - destruct (obj_get o (rank c)) as [cards|] eqn:E.
    + rewrite E. by rewrite obj_get_set_ne.
    + rewrite obj_get_set_eq. by rewrite !obj_get_set_ne.
Qed.

Lemma count_card_keys o c :
  (count_card o c).*1
  = if decide (rank c ∈ o.*1) then o.*1 else o.*1 ++ [rank c].
Proof.
  unfold count_card. destruct (obj_get o (rank c)) as [cards|] eqn:E.
  - rewrite E, obj_set_keys. destruct (decide (rank c ∈ o.*1)); [done|].
    by apply obj_get_None in n.
  - apply obj_get_None in E. rewrite obj_get_set_eq, !obj_set_keys.
    destruct (decide (rank c ∈ o.*1)); [done|]. rewrite decide_True; [done|].
    rewrite elem_of_app, list_elem_of_singleton. by right.
Qed.

Lemma rankCounts_keys hand :
  (foldl count_card [] hand).*1 = first_seen_ranks hand.
Proof.
  unfold first_seen_ranks.
  induction hand as [|c hand IH] using rev_ind; [done|].
  by rewrite !foldl_snoc, count_card_keys, IH.
Qed.

Lemma cards_of_rank_snoc r hand c :
  cards_of_rank r (hand ++ [c])
  = cards_of_rank r hand ++ (if decide (rank c = r) then [c] else []).
Proof.
  unfold cards_of_rank. rewrite list.filter_app. f_equal.
Qed.

Lemma cards_of_rank_nil r hand :
  r ∉ rank <$> hand → cards_of_rank r hand = [].
Proof.
  intros Hr. unfold cards_of_rank.
  induction hand as [|c hand IH]; [done|].
  rewrite fmap_cons, not_elem_of_cons in Hr. destruct Hr as [Hne Hr].
  rewrite filter_cons, decide_False by done. auto.
Qed.

Lemma rankCounts_get hand r :
  obj_get (foldl count_card [] hand) r
  = if decide (r ∈ rank <$> hand) then Some (cards_of_rank r hand) else None.
Proof.
  induction hand as [|c hand IH] using rev_ind.
  - rewrite decide_False; [done|apply not_elem_of_nil].
  - rewrite foldl_snoc, count_card_get, IH, cards_of_rank_snoc, fmap_app.
    destruct (decide (rank c = r)) as [<-|Hne].
    + destruct (decide (rank c ∈ (rank <$> hand) ++ (rank <$> [c]))) as [_|Hn].
      2:{ destruct Hn. rewrite elem_of_app. right. csimpl. left. }
      destruct (decide (rank c ∈ rank <$> hand)) as [Hin|Hin]; [done|].
      by rewrite (cards_of_rank_nil _ _ Hin).
    + rewrite app_nil_r.
      destruct (decide (r ∈ rank <$> hand)) as [Hin|Hin].
      * rewrite decide_True; [done|]. rewrite elem_of_app. by left.
      * rewrite decide_False; [done|].
        rewrite elem_of_app. csimpl. rewrite list_elem_of_singleton.
        naive_solver.
Qed.

Lemma first_seen_ranks_snoc hand c :
  first_seen_ranks (hand ++ [c])
  = if decide (rank c ∈ first_seen_ranks hand) then first_seen_ranks hand
    else first_seen_ranks hand ++ [rank c].
Proof. unfold first_seen_ranks. by rewrite foldl_snoc. Qed.

Lemma first_seen_ranks_elem_of hand r :
  r ∈ first_seen_ranks hand ↔ r ∈ rank <$> hand.
Proof.
  induction hand as [|c hand IH] using rev_ind; [done|].
  rewrite first_seen_ranks_snoc, fmap_app, elem_of_app. csimpl.
  rewrite list_elem_of_singleton.
  destruct (decide (rank c ∈ first_seen_ranks hand)) as [Hin|Hin].
  - rewrite IH. split; [by left|]. intros [?| ->]; [done|]. by apply IH.
  - rewrite elem_of_app, list_elem_of_singleton, IH. done.
Qed.

Lemma first_seen_ranks_NoDup hand : NoDup (first_seen_ranks hand).
Proof.
  induction hand as [|c hand IH] using rev_ind; [constructor|].
  rewrite first_seen_ranks_snoc.
  destruct (decide (rank c ∈ first_seen_ranks hand)) as [Hin|Hin]; [done|].
  apply list.NoDup_app. split; [done|]. split.
  - intros x Hx. rewrite list_elem_of_singleton. by intros ->.
  - apply NoDup_singleton.
Qed.

Lemma seen_before_snoc ranks r r' x :
  seen_before ranks r r' → seen_before (ranks ++ [x]) r r'.
Proof.
  intros (l1 & l2 & -> & ? & ?). exists l1, (l2 ++ [x]).
  by rewrite <- app_assoc.
Qed.

Lemma first_seen_ranks_sorted hand :
  StronglySorted (seen_before (rank <$> hand)) (first_seen_ranks hand).
Proof.
  induction hand as [|c hand IH] using rev_ind; [constructor|].
  rewrite first_seen_ranks_snoc, fmap_app. csimpl.
  assert (Hmono : StronglySorted (seen_before ((rank <$> hand) ++ [rank c]))
                    (first_seen_ranks hand)).
  { clear -IH. induction IH as [|r l _ IH' Hr]; constructor; [done|].
    eapply list.Forall_impl; [exact Hr|]. intros r'. apply seen_before_snoc. }
  destruct (decide (rank c ∈ first_seen_ranks hand)) as [Hin|Hin]; [done|].
  apply StronglySorted_app_2; [|done|repeat constructor].
  intros r r' Hr ->%list_elem_of_singleton.
  assert (rank c ∉ rank <$> hand) as Hnew by by rewrite <- first_seen_ranks_elem_of.
  apply first_seen_ranks_elem_of, list_elem_of_split in Hr as (l1 & l2 & Heq).
  exists l1, (l2 ++ [rank c]). rewrite Heq, <- app_assoc.
  split; [done|]. rewrite Heq in Hnew.
  rewrite elem_of_app, elem_of_cons in Hnew. naive_solver.
Qed.

(** ** Enumeration order of the rank-keyed object *)

Lemma array_index_pretty k n : array_index k = Some n → k = pretty n.
Proof.
  unfold array_index. destruct (parse_digits 0 k) as [m|]; [|done].
  case_decide as H; [|done]. intros [= <-]. by destruct H.
Qed.

Lemma array_index_inj k1 k2 n :
  array_index k1 = Some n → array_index k2 = Some n → k1 = k2.
Proof. intros ->%array_index_pretty ->%array_index_pretty. done. Qed.

Global Instance index_le_total : Total index_le.
Proof. intros k1 k2. unfold index_le. lia. Qed.

Global Instance index_le_trans : Transitive index_le.
Proof. intros k1 k2 k3. unfold index_le. lia. Qed.

Lemma StronglySorted_change {A} (R R' : relation A) (l : list A) :
  StronglySorted R l →
  NoDup l →
  (∀ x y, x ∈ l → y ∈ l → x ≠ y → R x y → R' x y) →
  StronglySorted R' l.
Proof.
  induction 1 as [|x l Hl IH Hx]; intros Hnd HR; [constructor|].
  apply list.NoDup_cons in Hnd as [Hxl Hnd].
  constructor.
  - apply IH; [done|]. intros y z Hy Hz. apply HR; by right.
  - rewrite list.Forall_forall in Hx |- *. intros y Hy.
    apply HR; [by left|by right| |by apply Hx]. by intros ->.
Qed.

Lemma StronglySorted_filter {A} (R : relation A) (P : A → Prop)
    `{!∀ x, Decision (P x)} (l : list A) :
  StronglySorted R l → StronglySorted R (filter P l).
Proof.
  induction 1 as [|x l Hl IH Hx]; [constructor|].
  rewrite filter_cons. destruct (decide (P x)); [|done].
  constructor; [done|].
  rewrite list.Forall_forall in Hx |- *.
  intros y [_ Hy]%list_elem_of_filter. by apply Hx.
Qed.

Lemma own_keys_elem_of {V} (o : object V) k : k ∈ own_keys o ↔ k ∈ o.*1.
Proof.
  unfold own_keys. rewrite elem_of_app, merge_sort_Permutation.
  rewrite !list_elem_of_filter.
  destruct (decide (is_array_index k)); tauto.
Qed.

Lemma own_keys_sorted hand :
  StronglySorted (key_before hand) (own_keys (foldl count_card [] hand)).
Proof.
  unfold own_keys. rewrite rankCounts_keys.
  pose proof (first_seen_ranks_NoDup hand) as Hnd.
  pose proof (first_seen_ranks_sorted hand) as Hsorted.
  apply StronglySorted_app_2.
  - intros k1 k2. rewrite merge_sort_Permutation, !list_elem_of_filter.
    intros [[n1 H1] _] [H2 _]. unfold key_before. rewrite H1.
    destruct (array_index k2) eqn:E2; [|done]. destruct H2. by eexists.
  - eapply StronglySorted_change.
    + apply (StronglySorted_merge_sort index_le).
    + rewrite merge_sort_Permutation. by apply list.NoDup_filter.
    + intros k1 k2. rewrite !merge_sort_Permutation, !list_elem_of_filter.
      intros [[n1 H1] _] [[n2 H2] _] Hne. unfold index_le, key_before.
      rewrite H1, H2. simpl. intros Hle.
      assert (n1 ≠ n2); [|lia]. intros ->. apply Hne.
      by eapply array_index_inj.
  - eapply StronglySorted_change.
    + apply StronglySorted_filter, Hsorted.
    + by apply list.NoDup_filter.
    + intros k1 k2. rewrite !list_elem_of_filter.
      intros [H1 _] [H2 _] _. unfold key_before, is_array_index in *.
      destruct (array_index k1); [by destruct H1|].
      destruct (array_index k2); [by destruct H2|]. done.
Qed.

(** ** Bot policy: the toss *)

Lemma find_pair_none hand keys :
  (∀ k, k ∈ keys →
        k ∈ rank <$> hand ∧ (length (cards_of_rank k hand) < 2)%nat) →
  find_pair (foldl count_card [] hand) keys = Ok None.
Proof.
  induction keys as [|k keys IH]; intros Hkeys; [done|].
  destruct (Hkeys k) as [Hin Hlen]; [left|].
  cbn [find_pair]. rewrite rankCounts_get, decide_True by done.
  rewrite decide_False by lia. apply IH. intros k' Hk'. apply Hkeys. by right.
Qed.

Lemma find_pair_first hand l1 r l2 c0 c1 rest :
  (∀ k, k ∈ l1 →
        k ∈ rank <$> hand ∧ (length (cards_of_rank k hand) < 2)%nat) →
  cards_of_rank r hand = c0 :: c1 :: rest →
  find_pair (foldl count_card [] hand) (l1 ++ r :: l2)
  = Ok (Some (TOSS [card_id c0; card_id c1])).
Proof.
  intros Hl1 Hr. induction l1 as [|k l1 IH].
  - cbn [app find_pair].
    assert (r ∈ rank <$> hand) as Hin.
    { destruct (decide (r ∈ rank <$> hand)) as [|Hn]; [done|].
      by rewrite (cards_of_rank_nil _ _ Hn) in Hr. }
    rewrite rankCounts_get, decide_True by done. rewrite Hr. cbn [length].
    rewrite decide_True by lia. done.
  - destruct (Hl1 k) as [Hin Hlen]; [left|].
    cbn [app find_pair]. rewrite rankCounts_get, decide_True by done.
    rewrite decide_False by lia. apply IH. intros k' Hk'. apply Hl1. by right.
Qed.

Lemma cards_of_rank_NoDup hand r :
  NoDup (rank <$> hand) → (length (cards_of_rank r hand) < 2)%nat.
Proof.
  induction hand as [|c hand IH]; [simpl; lia|].
  rewrite fmap_cons. intros [Hc Hnd]%list.NoDup_cons.
  unfold cards_of_rank. rewrite filter_cons.
  destruct (decide (rank c = r)) as [<-|Hne].
  - fold (cards_of_rank (rank c) hand).
    rewrite (cards_of_rank_nil _ _ Hc). simpl. lia.
  - by apply IH.
Qed.

Lemma toss_skipped hand tossedThisTurn :
  tossedThisTurn = true ∨ NoDup (rank <$> hand) →
  (if negb tossedThisTurn then
     find_pair (foldl count_card [] hand)
       (own_keys (foldl count_card [] hand))
   else Ok None) = Ok None.
Proof.
  intros [->|Hnd]; [done|]. destruct tossedThisTurn; [done|]. cbn [negb].
  apply find_pair_none. intros k Hk.
  apply own_keys_elem_of in Hk. rewrite rankCounts_keys in Hk.
  apply first_seen_ranks_elem_of in Hk. split; [done|].
  by apply cards_of_rank_NoDup.
Qed.

(** C3, as the code has it. A hand with two cards of one rank, before any
    toss this turn, is answered by a toss whatever the hand is worth: the
    toss names the first two cards, in hand order, of a rank that holds two
    or more cards, and that rank is the first such rank in the order in
    which the rank-keyed object lists its keys ([key_before]): ranks that
    are array indices in ascending numeric order, then the other ranks in
    the order in which the hand first shows them. *)
Theorem decideBotAction_toss (player : Player) (joker : option CardData) :
  has_pair (hand player) →
  ∃ r c0 c1 rest,
    cards_of_rank r (hand player) = c0 :: c1 :: rest
    ∧ decideBotAction player joker false = Ok (TOSS [card_id c0; card_id c1])
    ∧ ∀ r', r' ≠ r →
        (2 ≤ length (cards_of_rank r' (hand player)))%nat →
        key_before (hand player) r r'.
Proof.
  intros [r0 Hr0].
  set (P := λ r, (2 ≤ length (cards_of_rank r (hand player)))%nat).
  set (o := foldl count_card [] (hand player)).
  assert (Hkeys : ∀ k, k ∈ own_keys o ↔ k ∈ rank <$> hand player).
  { intros k. unfold o.
    by rewrite own_keys_elem_of, rankCounts_keys, first_seen_ranks_elem_of. }
  assert (HP : ∀ k, P k → k ∈ own_keys o).
  { intros k Hk. apply Hkeys.
    destruct (decide (k ∈ rank <$> hand player)) as [|Hn]; [done|].
    unfold P in Hk. rewrite (cards_of_rank_nil _ _ Hn) in Hk. simpl in Hk. lia. }
  destruct (list_find_elem_of P (own_keys o) r0) as [[i r] Hfind]; [auto..|].
  apply list_find_Some in Hfind as (Hi & Hr & Hbefore).
  destruct (list_elem_of_split_length _ _ _ Hi) as (l1 & l2 & Hsplit & ->).
  assert (Hl1 : ∀ k, k ∈ l1 → ¬ P k).
  { intros k [j Hj]%list_elem_of_lookup. apply (Hbefore j).
    - rewrite Hsplit. by apply lookup_app_l_Some.
    - by apply lookup_lt_Some in Hj. }
  destruct (cards_of_rank r (hand player)) as [|c0 [|c1 rest]] eqn:Hcards;
    [unfold P in Hr; rewrite Hcards in Hr; simpl in Hr; lia..|].
  exists r, c0, c1, rest. split; [done|]. split.
  - unfold decideBotAction. cbn [negb]. fold o. rewrite Hsplit.
    unfold o. rewrite (find_pair_first _ l1 r l2 c0 c1 rest); [done| |done].
    intros k Hk. split.
    + apply Hkeys. rewrite Hsplit, elem_of_app. by left.
    + apply Hl1 in Hk. unfold P in Hk. lia.
  - intros r' Hne Hr'.
    pose proof (own_keys_sorted (hand player)) as Hsorted.
    fold o in Hsorted. rewrite Hsplit in Hsorted.
    apply StronglySorted_app_1_r, StronglySorted_cons in Hsorted as [Hafter _].
    rewrite list.Forall_forall in Hafter. apply Hafter.
    pose proof (HP r' Hr') as Hin.
    rewrite Hsplit, elem_of_app, elem_of_cons in Hin.
    destruct Hin as [Hin|[->|Hin]]; [|done..].
    by destruct (Hl1 _ Hin).
Qed.

Lemma decideBotAction_toss_witness :
  ∃ r c0 c1 rest,
    cards_of_rank r (hand two_pairs) = c0 :: c1 :: rest
    ∧ decideBotAction two_pairs None false
      = Ok (TOSS [card_id c0; card_id c1])
    ∧ ∀ r', r' ≠ r →
        (2 ≤ length (cards_of_rank r' (hand two_pairs)))%nat →
        key_before (hand two_pairs) r r'.
Proof.
  apply (decideBotAction_toss two_pairs None).
  exists "9"%string. vm_compute. lia.
Defined.

(** C3, as stated, fails: in [two_pairs] the first rank seen, and the
    first to hold two cards, is "9", with the cards h1 and h2; the bot
    tosses the 7s, h3 and h4, because the key "7" is listed before "9". *)
Lemma decideBotAction_toss_not_first_seen :
  has_pair (hand two_pairs)
  ∧ first_seen_ranks (hand two_pairs) = ["9"; "7"]%string
  ∧ first_seen_pair (hand two_pairs) = Some ["h1"; "h2"]%string
  ∧ decideBotAction two_pairs None false = Ok (TOSS ["h3"; "h4"]%string)
  ∧ decideBotAction two_pairs None false ≠ Ok (TOSS ["h1"; "h2"]%string).
Proof.
  split; [exists "9"%string; vm_compute; lia|].
  repeat split; try reflexivity. vm_compute. discriminate.
Qed.

Lemma filter_all {A} (P : A → Prop) `{!∀ x, Decision (P x)} (l : list A) :
  Forall P l → filter P l = l.
Proof.
  induction 1 as [|x l Hx _ IH]; [done|].
  by rewrite filter_cons, decide_True, IH.
Qed.

Lemma filter_none {A} (P : A → Prop) `{!∀ x, Decision (P x)} (l : list A) :
  Forall (λ x, ¬ P x) l → filter P l = [].
Proof.
  induction 1 as [|x l Hx _ IH]; [done|].
  by rewrite filter_cons, decide_False.
Qed.

(** Where the two orders agree: in a hand none of whose ranks is an array
    index (aces and court cards), the keys are listed as first seen and the
    toss is the one the specification describes. *)
Lemma own_keys_first_seen hand :
  Forall (λ c, array_index (rank c) = None) hand →
  own_keys (foldl count_card [] hand) = first_seen_ranks hand.
Proof.
  intros Hhand. unfold own_keys. rewrite rankCounts_keys.
  assert (Hnone : Forall (λ r, ¬ is_array_index r) (first_seen_ranks hand)).
  { apply list.Forall_forall. intros r Hr%first_seen_ranks_elem_of.
    apply list_elem_of_fmap in Hr as (c & -> & Hc).
    rewrite list.Forall_forall in Hhand. unfold is_array_index.
    rewrite (Hhand c Hc). by intros [? ?]. }
  rewrite (filter_none _ _ Hnone), (filter_all _ _ Hnone). done.
Qed.

Lemma decideBotAction_toss_first_seen (player : Player)
    (joker : option CardData) :
  Forall (λ c, array_index (rank c) = None) (hand player) →
  has_pair (hand player) →
  ∃ ids, first_seen_pair (hand player) = Some ids
         ∧ decideBotAction player joker false = Ok (TOSS ids).
Proof.
  intros Hhand [r0 Hr0].
  set (P := λ r, (2 ≤ length (cards_of_rank r (hand player)))%nat).
  assert (Hin0 : r0 ∈ first_seen_ranks (hand player)).
  { apply first_seen_ranks_elem_of.
    destruct (decide (r0 ∈ rank <$> hand player)) as [|Hn]; [done|].
    rewrite (cards_of_rank_nil _ _ Hn) in Hr0. simpl in Hr0. lia. }
  destruct (list_find_elem_of P _ r0 Hin0 Hr0) as [[i r] Hfind].
  unfold first_seen_pair. fold P. rewrite Hfind.
  apply list_find_Some in Hfind as (Hi & Hr & Hbefore).
  destruct (list_elem_of_split_length _ _ _ Hi) as (l1 & l2 & Hsplit & ->).
  destruct (cards_of_rank r (hand player)) as [|c0 [|c1 rest]] eqn:Hcards;
    [unfold P in Hr; rewrite Hcards in Hr; simpl in Hr; lia..|].
  eexists. split; [done|].
  unfold decideBotAction. cbn [negb]. rewrite (own_keys_first_seen _ Hhand), Hsplit.
  rewrite (find_pair_first _ l1 r l2 c0 c1 rest); [done| |done].
  intros k Hk. split.
  - apply first_seen_ranks_elem_of. rewrite Hsplit, elem_of_app. by left.
  - apply list_elem_of_lookup in Hk as [j Hj].
    assert (¬ P k) as Hnk; [|unfold P in Hnk; lia].
    apply (Hbefore j).
    + rewrite Hsplit. by apply lookup_app_l_Some.
    + by apply lookup_lt_Some in Hj.
Qed.

(** ** Bot policy: show and discard *)

Lemma discard_val_contribution joker c :
  discard_val joker c = contribution joker c.
Proof.
  destruct joker as [j|]; [|done]. by rewrite contribution_joker.
Qed.

Lemma keep_highest_scan joker l hc hv :
  (Forall (λ c, discard_val joker c ≤ hv) l
   ∧ foldl (keep_highest joker) (hc, hv) l = (hc, hv))
  ∨ ∃ before c after,
      l = before ++ c :: after
      ∧ foldl (keep_highest joker) (hc, hv) l = (Some c, discard_val joker c)
      ∧ hv < discard_val joker c
      ∧ Forall (λ c', discard_val joker c' < discard_val joker c) before
      ∧ Forall (λ c', discard_val joker c' ≤ discard_val joker c) after.
Proof.
  revert hc hv. induction l as [|x l IH]; intros hc hv.
  - left. by split.
  - cbn [foldl].
    change (keep_highest joker (hc, hv) x)
      with (if decide (discard_val joker x > hv)
            then (Some x, discard_val joker x) else (hc, hv)).
    destruct (decide (discard_val joker x > hv)) as [Hx|Hx].
    + destruct (IH (Some x) (discard_val joker x))
        as [[Hall ->]|(before & c & after & -> & -> & Hlt & Hb & Ha)].
      * right. exists [], x, l. split_and!; [done|done|lia|constructor|done].
      * right. exists (x :: before), c, after.
        split_and!; [done|done|lia|constructor; [lia|done]|done].
    + destruct (IH hc hv)
        as [[Hall ->]|(before & c & after & -> & -> & Hlt & Hb & Ha)].
      * left. split; [|done]. constructor; [lia|done].
      * right. exists (x :: before), c, after.
        split_and!; [done|done|lia|constructor; [lia|done]|done].
Qed.

Lemma sumZ_nonpos l : Forall (λ v, v ≤ 0) l → sumZ l ≤ 0.
Proof. induction 1; simpl; lia. Qed.

(** Past the toss and the show, the scan ends on the first card that holds
    the highest effective value. *)
Lemma discard_scan hand joker :
  5 < calculateHandValue hand joker →
  ∃ before c after,
    hand = before ++ c :: after
    ∧ foldl (keep_highest joker) (hand !! 0%nat, -1) hand
      = (Some c, discard_val joker c)
    ∧ Forall (λ c', contribution joker c' < contribution joker c) before
    ∧ Forall (λ c', contribution joker c' ≤ contribution joker c) after.
Proof.
  intros Hval.
  destruct (keep_highest_scan joker hand (hand !! 0%nat) (-1))
    as [[Hall _]|(before & c & after & Hsplit & Hfold & _ & Hb & Ha)].
  - exfalso. rewrite calculateHandValue_contribution in Hval.
    assert (sumZ (contribution joker <$> hand) ≤ 0); [|lia].
    apply sumZ_nonpos, Forall_fmap.
    eapply list.Forall_impl; [exact Hall|]. intros c. simpl.
    rewrite discard_val_contribution. lia.
  - exists before, c, after. repeat split; [done..| |].
    + eapply list.Forall_impl; [exact Hb|]. intros c'.
      by rewrite !discard_val_contribution.
    + eapply list.Forall_impl; [exact Ha|]. intros c'.
      by rewrite !discard_val_contribution.
Qed.

Lemma decideBotAction_discard_scan player joker tossedThisTurn :
  tossedThisTurn = true ∨ NoDup (rank <$> hand player) →
  5 < calculateHandValue (hand player) joker →
  ∃ c, decideBotAction player joker tossedThisTurn = Ok (DISCARD [card_id c])
       ∧ foldl (keep_highest joker) (hand player !! 0%nat, -1) (hand player)
         = (Some c, discard_val joker c).
Proof.
  intros Htoss Hval.
  destruct (discard_scan _ _ Hval) as (before & c & after & _ & Hfold & _).
  exists c. split; [|done].
  unfold decideBotAction. rewrite (toss_skipped _ _ Htoss). cbn [rbind].
  rewrite decide_False by lia. by rewrite Hfold.
Qed.

(** C5. When the toss does not fire (a toss was already made this turn, or
    no rank occurs twice) and the hand is worth more than 5, the bot
    discards exactly one card: the first card, in hand order, whose
    effective value (0 for a card with the joker's rank and suit, its
    value otherwise) is the highest of the hand. Every card before it is
    worth strictly less, every card after it at most as much. *)
Theorem decideBotAction_discard
    (player : Player) (joker : option CardData) (tossedThisTurn : bool) :
  tossedThisTurn = true ∨ NoDup (rank <$> hand player) →
  5 < calculateHandValue (hand player) joker →
  ∃ before c after,
    hand player = before ++ c :: after
    ∧ decideBotAction player joker tossedThisTurn = Ok (DISCARD [card_id c])
    ∧ Forall (λ c', contribution joker c' < contribution joker c) before
    ∧ Forall (λ c', contribution joker c' ≤ contribution joker c) after.
Proof.
  intros Htoss Hval.
  destruct (discard_scan _ _ Hval) as (before & c & after & Hs & Hfold & Hb & Ha).
  exists before, c, after. repeat split; [done| |done..].
  destruct (decideBotAction_discard_scan _ _ _ Htoss Hval) as (c' & -> & Hfold').
  rewrite Hfold in Hfold'. by injection Hfold' as <- _.
Qed.

Lemma decideBotAction_discard_witness :
  ∃ before c after,
    hand king_queen = before ++ c :: after
    ∧ decideBotAction king_queen None false = Ok (DISCARD [card_id c])
    ∧ Forall (λ c', contribution None c' < contribution None c) before
    ∧ Forall (λ c', contribution None c' ≤ contribution None c) after.
Proof.
  apply (decideBotAction_discard king_queen None false).
  - right. apply (bool_decide_unpack _). vm_compute. exact I.
  - vm_compute. reflexivity.
Defined.

(** The two cards worth 10 tie for the highest value: the earlier goes. *)
Lemma decideBotAction_discard_tie :
  decideBotAction king_queen None false = Ok (DISCARD ["k2"%string]).
Proof. reflexivity. Qed.

(** C6. When the toss does not fire (a toss was already made this turn, or
    no rank occurs twice), the bot shows exactly when the hand is worth at
    most 5, and discards one card otherwise. *)
Theorem decideBotAction_show
    (player : Player) (joker : option CardData) (tossedThisTurn : bool) :
  tossedThisTurn = true ∨ NoDup (rank <$> hand player) →
  (decideBotAction player joker tossedThisTurn = Ok SHOW
   ↔ calculateHandValue (hand player) joker ≤ 5)
  ∧ (5 < calculateHandValue (hand player) joker →
     ∃ id, decideBotAction player joker tossedThisTurn = Ok (DISCARD [id])).
Proof.
  intros Htoss. split.
  - destruct (decide (calculateHandValue (hand player) joker ≤ 5)) as [Hle|Hgt].
    + split; [done|]. intros _.
      unfold decideBotAction. rewrite (toss_skipped _ _ Htoss). cbn [rbind].
      by rewrite decide_True.
    + split; [|done]. intros Hshow. exfalso.
      destruct (decideBotAction_discard_scan player joker tossedThisTurn)
        as (c & Hc & _); [done|lia|]. congruence.
  - intros Hval.
    destruct (decideBotAction_discard_scan player joker tossedThisTurn)
      as (c & Hc & _); [done..|]. eauto.
Qed.

Lemma decideBotAction_show_witness :
  (decideBotAction worth_five None false = Ok SHOW
   ↔ calculateHandValue (hand worth_five) None ≤ 5)
  ∧ (5 < calculateHandValue (hand worth_five) None →
     ∃ id, decideBotAction worth_five None false = Ok (DISCARD [id])).
Proof.
  apply (decideBotAction_show worth_five None false).
  right. apply (bool_decide_unpack _). vm_compute. exact I.
Defined.

(** A pairless hand worth exactly 5 is shown, one worth 6 loses a card. *)
Lemma decideBotAction_threshold :
  calculateHandValue (hand worth_five) None = 5
  ∧ decideBotAction worth_five None false = Ok SHOW
  ∧ calculateHandValue (hand worth_six) None = 6
  ∧ decideBotAction worth_six None false = Ok (DISCARD ["s2"%string]).
Proof. repeat split. Qed.

(** ** Shuffle *)

Lemma pow2_pos (k : N) : (0 < 2 ^ k)%N.
Proof. pose proof (N.pow_nonzero 2 k). lia. Qed.

(** Rounding moves a product by at most half a unit in its last place. *)
Lemma round53_error (m : N) :
  ∃ d : N, (round53 m = m + d ∨ round53 m + d = m)%N ∧ (d * 2 ^ 53 ≤ m)%N.
Proof.
  unfold round53. destruct (N.ltb_spec m (2 ^ 53)) as [Hm|Hm].
  { exists 0%N. split; [left|]; lia. }
  assert (0 < m)%N as Hpos by lia.
  destruct (N.log2_spec m Hpos) as [Hlo Hhi].
  assert (53 ≤ N.log2 m)%N as Hlog.
  { apply N.log2_le_pow2; done. }
  set (k := (N.log2 m - 52)%N).
  assert (N.log2 m = k - 1 + 53)%N as Hk by lia.
  assert (2 ^ k = 2 * 2 ^ (k - 1))%N as Hpow.
  { replace k with (N.succ (k - 1)) at 1 by lia. by rewrite N.pow_succ_r'. }
  assert (2 ^ (k - 1) * 2 ^ 53 ≤ m)%N as Hhalf.
  { rewrite <- N.pow_add_r, <- Hk. done. }
  pose proof (pow2_pos (k - 1)) as Hp.
  pose proof (N.div_mod m (2 ^ k)) as Hdm.
  pose proof (N.mod_lt m (2 ^ k)) as Hr.
  set (q := (m `div` 2 ^ k)%N) in *. set (r := (m `mod` 2 ^ k)%N) in *.
  set (h := (2 ^ (k - 1))%N) in *.
  assert (r < 2 * h)%N as Hr' by (rewrite <- Hpow; apply Hr; lia).
  assert (m = 2 * h * q + r)%N as Hm' by (rewrite <- Hpow; apply Hdm; lia).
  destruct (N.ltb_spec h r) as [Hup|Hdown]; cbn [orb].
  - exists (2 * h - r)%N. split; [left|]; rewrite ?Hpow; nia.
  - destruct (N.eqb_spec r h) as [Heq|Hne]; cbn [andb].
    + destruct (N.odd q).
      * exists h. split; [left|]; rewrite ?Hpow; nia.
      * exists h. split; [right|]; rewrite ?Hpow; nia.
    + exists r. split; [right|]; rewrite ?Hpow; nia.
Qed.

(** A double below 1 is at most [1 - 2^-53]. *)
Lemma in_unit_bounds (u : draw) :
  (numer u * 2 ^ 53 ≤ (2 ^ 53 - 1) * denom u)%N ∧ (0 < denom u)%N.
Proof.
  pose proof (in_unit u) as H. unfold unit_double in H.
  apply andb_true_iff in H as [[H1 H2]%andb_true_iff _].
  apply N.ltb_lt in H1, H2. unfold denom.
  pose proof (pow2_pos (scale u)) as Hp.
  split; [|done].
  destruct (N.le_gt_cases (scale u) 53) as [Hs|Hs].
  - assert (2 ^ scale u ≤ 2 ^ 53)%N by (apply N.pow_le_mono_r; lia). nia.
  - assert (2 ^ 53 ≤ 2 ^ scale u)%N by (apply N.pow_le_mono_r; lia). nia.
Qed.

(** The rounded product of a double below 1 and [n] stays below [n]. *)
Lemma floor_times_lt (u : draw) (n : nat) :
  (0 < n)%nat → (floor_times u n < n)%nat.
Proof.
  intros Hn. unfold floor_times.
  destruct (in_unit_bounds u) as [Hu Hd].
  destruct (round53_error (numer u * N.of_nat n)) as (d & Hround & Hd').
  set (R := round53 (numer u * N.of_nat n)) in *.
  assert (R `div` denom u < N.of_nat n)%N; [|lia].
  apply N.Div0.div_lt_upper_bound.
  set (P := (2 ^ 53)%N) in *. assert (P = 9007199254740992%N) as HP by done.
  nia.
Qed.

Lemma floor_times_le (u : draw) (i : nat) : (floor_times u (i + 1) ≤ i)%nat.
Proof. pose proof (floor_times_lt u (i + 1)). lia. Qed.

(** The floor is that of the rounded product, which can be one more than
    the floor of the exact product. *)
Lemma floor_times_rounded :
  floor_times third 3 = 1%nat
  ∧ ((numer third * 3) `div` denom third = 0)%N
  ∧ floor_times below_16_51 51 = 16%nat
  ∧ ((numer below_16_51 * 51) `div` denom below_16_51 = 15)%N.
Proof. by vm_compute. Qed.

Section shuffle.
Context {T : Type}.
Implicit Types (a : list T) (h : store T).

Lemma swap_head_Permutation a (j : nat) (x y : T) :
  a !! j = Some y → y :: <[j:=x]> a ≡ₚ x :: a.
Proof.
  revert j. induction a as [|z a IH]; intros [|j] Hj; simplify_eq/=.
  - apply perm_swap.
  - rewrite (perm_swap z y), (IH _ Hj). apply perm_swap.
Qed.

Lemma swap_elems_Permutation a (i j : nat) : swap_elems a i j ≡ₚ a.
Proof.
  unfold swap_elems.
  destruct (a !! i) as [x|] eqn:Hi; [|done].
  destruct (a !! j) as [y|] eqn:Hj; [|done].
  revert i j Hi Hj. induction a as [|z a IH]; intros [|i] [|j] Hi Hj;
    simplify_eq/=.
  - done.
  - by apply swap_head_Permutation.
  - by apply swap_head_Permutation.
  - f_equiv. by apply IH.
Qed.

Lemma swap_elems_length a (i j : nat) : length (swap_elems a i j) = length a.
Proof.
  unfold swap_elems. repeat case_match; by rewrite ?length_insert.
Qed.

Lemma fisher_yates_steps_Permutation a (steps : list (nat * nat)) :
  foldl (λ a ij, swap_elems a ij.1 ij.2) a steps ≡ₚ a.
Proof.
  revert a. induction steps as [|ij steps IH]; intros a; [done|].
  cbn [foldl]. by rewrite IH, swap_elems_Permutation.
Qed.

Lemma fisher_yates_steps_length a (steps : list (nat * nat)) :
  length (foldl (λ a ij, swap_elems a ij.1 ij.2) a steps) = length a.
Proof.
  revert a. induction steps as [|ij steps IH]; intros a; [done|].
  cbn [foldl]. by rewrite IH, swap_elems_length.
Qed.

Lemma countdown_S (i : nat) :
  reverse (seq 1 (S i)) = S i :: reverse (seq 1 i).
Proof. by rewrite seq_S, reverse_app. Qed.

Lemma shuffle_loop_steps random calls h newDeck (i : nat) a :
  h !! newDeck = Some a →
  shuffle_loop random calls h newDeck i
  = <[newDeck := foldl (λ a ij, swap_elems a ij.1 ij.2) a
                   (zip (reverse (seq 1 i)) (draws random calls i))]> h.
Proof.
  revert calls h a. induction i as [|i IH]; intros calls h a Ha.
  - symmetry. by apply list_insert_id.
  - cbn [shuffle_loop draws]. rewrite countdown_S. cbn [zip zip_with foldl fst snd].
    unfold swap at 1. rewrite Ha.
    rewrite (IH _ _ (swap_elems a (S i) (floor_times (random calls) (S i + 1)))).
    + apply list_insert_insert_eq.
    + apply list_lookup_insert_eq. by eapply lookup_lt_Some.
Qed.

Lemma draws_in_range random calls (i n : nat) :
  (i < n)%nat →
  Forall2 (λ i j : nat, (1 ≤ i < n)%nat ∧ (j ≤ i)%nat)
          (reverse (seq 1 i)) (draws random calls i).
Proof.
  revert calls. induction i as [|i IH]; intros calls Hi; [constructor|].
  rewrite countdown_S. cbn [draws]. constructor.
  - split; [lia|]. apply floor_times_le.
  - apply IH. lia.
Qed.


Lemma read_alloc h a : read (h ++ [a]) (length h) = a.
Proof.
  unfold read, store in *. by rewrite lookup_app_r, Nat.sub_diag by lia.
Qed.

(** The run of [shuffleDeck]: the copy is allocated after the arrays of the
    store, and the loop leaves in it the result of the swaps. *)
Lemma shuffleDeck_run random h deck :
  shuffleDeck random h deck
  = (h ++ [fisher_yates (read h deck)
             (draws random 0 (length (read h deck) - 1))],
     length h).
Proof.
  set (a := read h deck).
  assert (Hnew : (h ++ [a]) !! length h = Some a).
  { unfold store in *. by rewrite lookup_app_r, Nat.sub_diag by lia. }
  change (shuffleDeck random h deck)
    with (shuffle_loop random 0 (h ++ [a]) (length h)
            (length (read (h ++ [a]) (length h)) - 1), length h).
  rewrite (read_alloc h a), (shuffle_loop_steps _ _ _ _ _ a Hnew).
  f_equal. fold (fisher_yates a (draws random 0 (length a - 1))).
  replace (length h) with (length h + 0)%nat at 1 by lia.
  apply (insert_app_r h [a] 0).
Qed.


End shuffle.

(** ** Card ids *)

Lemma digit_of_pretty_N_char (x : N) : is_Some (digit_of (pretty_N_char x)).
Proof. unfold pretty_N_char. repeat case_match; by eexists. Qed.

Lemma digits_prefix_pretty_N_go (x : N) (s : string) :
  digits_prefix s = s → digits_prefix (pretty_N_go x s) = pretty_N_go x s.
Proof.
  revert s. induction (N.lt_wf_0 x) as [x _ IH]; intros s Hs.
  destruct (decide (x = 0)%N) as [->|Hx]; [by rewrite pretty_N_go_0|].
  rewrite pretty_N_go_step by lia. apply IH.
  - apply N.div_lt; lia.
  - cbn [digits_prefix].
    destruct (digit_of_pretty_N_char (x `mod` 10)) as [d ->]. by rewrite Hs.
Qed.

Lemma digits_prefix_pretty (n : nat) : digits_prefix (pretty n) = pretty n.
Proof.
  unfold pretty, pretty_nat, pretty, pretty_N.
  case_decide; [done|]. by apply digits_prefix_pretty_N_go.
Qed.

Lemma digits_prefix_dash (d rest : string) :
  digits_prefix d = d → digits_prefix (d +:+ String "-" rest) = d.
Proof.
  induction d as [|c d IH]; [done|]. simpl.
  destruct (digit_of c); [|done]. intros [= Hd]. by rewrite IH.
Qed.

Lemma counter_of_id_inj (i j : nat) (x y : string) :
  "card-" +:+ pretty i +:+ "-" +:+ x = "card-" +:+ pretty j +:+ "-" +:+ y →
  i = j.
Proof.
  intros [= H]. apply (inj pretty).
  rewrite <- (digits_prefix_dash (pretty i) x) by apply digits_prefix_pretty.
  rewrite <- (digits_prefix_dash (pretty j) y) by apply digits_prefix_pretty.
  f_equal. exact H.
Qed.

(** ** Deck builder *)

Lemma foldl_invariant {A B} (I : A → Prop) (f : A → B → A) (l : list B) a :
  (∀ a x, x ∈ l → I a → I (f a x)) → I a → I (foldl f a l).
Proof.
  revert a. induction l as [|x l IH]; intros a Hf Ha; [done|].
  cbn [foldl]. apply IH.
  - intros a' y Hy. apply Hf. by right.
  - apply Hf; [left|done].
Qed.

Lemma count_once {A} `{EqDecision A} (l : list A) (x : A) :
  NoDup l → x ∈ l → length (filter (λ y, y = x) l) = 1%nat.
Proof.
  induction 1 as [|y l Hy Hnd IH]; intros Hx; [by apply elem_of_nil in Hx|].
  rewrite filter_cons. destruct (decide (y = x)) as [->|Hne].
  - cbn [length]. f_equal.
    destruct (filter (λ y, y = x) l) as [|z t] eqn:E; [done|]. exfalso.
    assert (z ∈ filter (λ y, y = x) l) as Hz by (rewrite E; left).
    by apply list_elem_of_filter in Hz as [-> Hz].
  - apply IH. apply elem_of_cons in Hx as [->|]; done.
Qed.

Lemma filter_fmap_length {A B} `{EqDecision B} (f : A → B) (y : B)
    (l : list A) :
  length (filter (λ x, f x = y) l) = length (filter (λ z, z = y) (f <$> l)).
Proof.
  induction l as [|x l IH]; [done|].
  rewrite fmap_cons, !filter_cons.
  destruct (decide (f x = y)); simpl; by rewrite IH.
Qed.

Section deck.
Variables (SUITS RANKS : list string) (RANK_VALUES : string → Z).

#[local] Abbreviation new_card := (new_card RANK_VALUES).
#[local] Abbreviation push_card := (push_card RANK_VALUES).
#[local] Abbreviation numbered := (numbered RANK_VALUES).
#[local] Abbreviation ordered_deck := (ordered_deck SUITS RANKS RANK_VALUES).
#[local] Abbreviation createDeck := (createDeck SUITS RANKS RANK_VALUES).

Lemma push_card_numbered s st r : numbered st → numbered (push_card s st r).
Proof.
  intros [Hn Hcards]. split; cbn [push_card fst snd].
  - rewrite length_app. simpl. lia.
  - intros i c [[_ Hi]|[-> <-]]%lookup_snoc_Some; [by apply Hcards|].
    by rewrite <- Hn.
Qed.

Lemma ordered_deck_numbered :
  ∀ (i : nat) c, ordered_deck !! i = Some c → c = new_card i (suit c) (rank c).
Proof.
  unfold ordered_deck.
  apply (foldl_invariant numbered).
  - intros st s _ Hst. apply (foldl_invariant numbered); [|done].
    intros st' r _. apply push_card_numbered.
  - split; [done|]. intros i c Hi. by destruct i.
Qed.

Lemma push_cards_pairs s st :
  (λ c, (suit c, rank c)) <$> (foldl (push_card s) st RANKS).1
  = ((λ c, (suit c, rank c)) <$> st.1) ++ (pair s <$> RANKS).
Proof.
  revert st. induction RANKS as [|r rs IH]; intros st.
  - by rewrite app_nil_r.
  - cbn [foldl]. rewrite IH. cbn [push_card fst].
    rewrite fmap_app, <- app_assoc. done.
Qed.

Lemma ordered_deck_pairs :
  (λ c, (suit c, rank c)) <$> ordered_deck = SUITS ≫= λ s, pair s <$> RANKS.
Proof.
  unfold ordered_deck.
  change (SUITS ≫= λ s, pair s <$> RANKS)
    with (((λ c, (suit c, rank c)) <$> (([], 0%nat) : list CardData * nat).1)
          ++ (SUITS ≫= λ s, pair s <$> RANKS)).
  generalize (([], 0%nat) : list CardData * nat).
  induction SUITS as [|s ss IH]; intros st.
  - by rewrite app_nil_r.
  - cbn [foldl]. rewrite IH, push_cards_pairs, bind_cons, <- app_assoc. done.
Qed.

Lemma pairs_length : length (SUITS ≫= λ s, pair s <$> RANKS)
                     = (length SUITS * length RANKS)%nat.
Proof.
  induction SUITS as [|s ss IH]; [done|].
  rewrite bind_cons, length_app, length_fmap, IH. simpl. lia.
Qed.

Lemma pairs_NoDup :
  NoDup SUITS → NoDup RANKS → NoDup (SUITS ≫= λ s, pair s <$> RANKS).
Proof.
  intros Hs Hr. apply NoDup_bind; [| |done].
  - intros s1 s2 [s r] _ _ (? & [= -> ->] & _)%list_elem_of_fmap
      (? & [= -> ->] & _)%list_elem_of_fmap. done.
  - intros s _. apply (NoDup_fmap_2 _). done.
Qed.

Lemma ordered_deck_ids_NoDup : NoDup (card_id <$> ordered_deck).
Proof.
  apply NoDup_alt. intros i j id.
  rewrite !list_lookup_fmap.
  destruct (ordered_deck !! i) as [ci|] eqn:Hi; [|done].
  destruct (ordered_deck !! j) as [cj|] eqn:Hj; [|done].
  apply ordered_deck_numbered in Hi, Hj. simpl.
  intros [= Hci] [= Hcj].
  assert (card_id ci = card_id cj) as E by congruence.
  rewrite Hi, Hj in E. exact (counter_of_id_inj i j _ _ E).
Qed.

Lemma createDeck_Permutation random : createDeck random ≡ₚ ordered_deck.
Proof.
  unfold createDeck. cbn [alloc app length].
  rewrite shuffleDeck_run, (read_alloc [ordered_deck]).
  apply fisher_yates_steps_Permutation.
Qed.

(** C7. Whatever the random draws, [createDeck] returns as many cards as
    there are pairs of a suit and a rank; every pair of a suit of [SUITS]
    and a rank of [RANKS] is the suit and rank of exactly one card, and no
    card has another suit or rank; the card ids are pairwise distinct; and
    the value of each card is the entry of [RANK_VALUES] for its rank.
    [SUITS] and [RANKS] are taken to list each suit and each rank once. *)
Theorem createDeck_complete (random : nat → draw) :
  NoDup SUITS → NoDup RANKS →
  length (createDeck random) = (length SUITS * length RANKS)%nat
  ∧ (∀ s r, s ∈ SUITS → r ∈ RANKS →
       length (filter (λ c, (suit c, rank c) = (s, r)) (createDeck random))
       = 1%nat)
  ∧ (∀ c, c ∈ createDeck random → suit c ∈ SUITS ∧ rank c ∈ RANKS)
  ∧ NoDup (card_id <$> createDeck random)
  ∧ Forall (λ c, value c = RANK_VALUES (rank c)) (createDeck random).
Proof.
  intros Hsuits Hranks.
  pose proof (createDeck_Permutation random) as Hperm.
  split_and!.
  - by rewrite Hperm, <- (length_fmap (λ c, (suit c, rank c))),
      ordered_deck_pairs, pairs_length.
  - intros s r Hs Hr.
    rewrite Hperm, (filter_fmap_length (λ c, (suit c, rank c))).
    rewrite ordered_deck_pairs. apply count_once; [by apply pairs_NoDup|].
    apply list_elem_of_bind. exists s. split; [|done].
    by apply list_elem_of_fmap_2.
  - intros c Hc. rewrite Hperm in Hc.
    assert ((suit c, rank c) ∈ (λ c, (suit c, rank c)) <$> ordered_deck) as Hp
      by by apply (list_elem_of_fmap_2 (λ c, (suit c, rank c))).
    rewrite ordered_deck_pairs in Hp.
    apply list_elem_of_bind in Hp as (s & (r & [= -> ->] & Hr)%list_elem_of_fmap & Hs).
    done.
  - rewrite Hperm. apply ordered_deck_ids_NoDup.
  - rewrite Hperm. apply list.Forall_forall. intros c [i Hi]%list_elem_of_lookup.
    apply ordered_deck_numbered in Hi. by rewrite Hi.
Qed.

End deck.

Lemma createDeck_complete_witness :
  let deck := createDeck two_suits three_ranks sample_values (λ _, half) in
  length deck = (length two_suits * length three_ranks)%nat
  ∧ (∀ s r, s ∈ two_suits → r ∈ three_ranks →
       length (filter (λ c, (suit c, rank c) = (s, r)) deck) = 1%nat)
  ∧ (∀ c, c ∈ deck → suit c ∈ two_suits ∧ rank c ∈ three_ranks)
  ∧ NoDup (card_id <$> deck)
  ∧ Forall (λ c, value c = sample_values (rank c)) deck.
Proof.
  apply (createDeck_complete two_suits three_ranks sample_values (λ _, half));
    apply (bool_decide_unpack _); vm_compute; exact I.
Defined.

(** The deck the sample builds: the six cards, numbered in the order of
    the loops, after the swaps (5,3), (4,2), (3,2), (2,1), (1,1). *)
Lemma createDeck_sample :
  card_id <$> createDeck two_suits three_ranks sample_values (λ _, half)
  = ["card-0-A-S"; "card-5-10-H"; "card-1-7-S"; "card-4-7-H"; "card-2-10-S";
     "card-3-A-H"]%string.
Proof. reflexivity. Qed.

(** * Further properties *)

(** ** Hand valuator *)

Lemma sumZ_app l1 l2 : sumZ (l1 ++ l2) = sumZ l1 + sumZ l2.
Proof.
  induction l1 as [|v l1 IH]; [done|].
  cbn [app sumZ]. rewrite IH. lia.
Qed.

Lemma sumZ_Permutation l1 l2 : l1 ≡ₚ l2 → sumZ l1 = sumZ l2.
Proof. induction 1; cbn [sumZ]; lia. Qed.

(** X1. The value of two hands put together is the sum of their values,
    under any joker. *)
Theorem calculateHandValue_app (h1 h2 : list CardData)
    (joker : option CardData) :
  calculateHandValue (h1 ++ h2) joker
  = calculateHandValue h1 joker + calculateHandValue h2 joker.
Proof. by rewrite !calculateHandValue_contribution, fmap_app, sumZ_app. Qed.

(** X2. The value of a hand does not depend on the order of its cards. *)
Theorem calculateHandValue_Permutation (h1 h2 : list CardData)
    (joker : option CardData) :
  h1 ≡ₚ h2 → calculateHandValue h1 joker = calculateHandValue h2 joker.
Proof.
  intros Hperm. rewrite !calculateHandValue_contribution.
  apply sumZ_Permutation. by rewrite Hperm.
Qed.

Lemma calculateHandValue_Permutation_witness :
  calculateHandValue (hand king_queen) (Some (card "j" "K" "H" 10))
  = calculateHandValue (reverse (hand king_queen))
      (Some (card "j" "K" "H" 10)).
Proof.
  apply (calculateHandValue_Permutation (hand king_queen)
           (reverse (hand king_queen))).
  symmetry. apply reverse_Permutation.
Defined.

Lemma joker_zeroing_sum (hand : list CardData)
    (j : CardData) :
  calculateHandValue hand (Some j)
  = calculateHandValue hand None
    - sumZ (value <$> filter (λ c, rank c = rank j ∧ suit c = suit j) hand).
Proof.
  rewrite !calculateHandValue_contribution.
  induction hand as [|c hand IH]; [done|].
  rewrite filter_cons, !fmap_cons. cbn [sumZ].
  assert (contribution None c = value c) as Hnone by done.
  destruct (decide (rank c = rank j ∧ suit c = suit j)) as [H|H].
  - assert (contribution (Some j) c = 0) as Hsome
      by (unfold contribution; by rewrite decide_True).
    rewrite fmap_cons. cbn [sumZ]. rewrite Hsome, Hnone, IH. ring.
  - assert (contribution (Some j) c = value c) as Hsome
      by (unfold contribution; by rewrite decide_False).
    rewrite Hsome, Hnone, IH. ring.
Qed.

(** X3. A joker lowers the value of a hand by the values of the cards that
    match it in rank and suit, and by nothing else. *)
Theorem calculateHandValue_joker_zeroing (hand : list CardData)
    (j : CardData) :
  calculateHandValue hand (Some j)
  = calculateHandValue hand None
    - sumZ (value <$> filter (λ c, rank c = rank j ∧ suit c = suit j) hand).
Proof. apply joker_zeroing_sum. Qed.

Lemma sumZ_nonneg l : Forall (λ v, 0 ≤ v) l → 0 ≤ sumZ l.
Proof. induction 1; cbn [sumZ]; lia. Qed.

(** X4. When no card has a negative value, the value of a hand is not
    negative, and a joker can only lower it. *)
Theorem calculateHandValue_bounds (hand : list CardData) (j : CardData) :
  Forall (λ c, 0 ≤ value c) hand →
  0 ≤ calculateHandValue hand (Some j) ≤ calculateHandValue hand None.
Proof.
  intros Hpos. split.
  - rewrite calculateHandValue_contribution. apply sumZ_nonneg, Forall_fmap.
    eapply list.Forall_impl; [exact Hpos|]. intros c Hc. simpl in *.
    unfold contribution. case_decide; lia.
  - rewrite joker_zeroing_sum.
    assert (0 ≤ sumZ (value <$>
              filter (λ c, rank c = rank j ∧ suit c = suit j) hand)); [|lia].
    apply sumZ_nonneg, Forall_fmap.
    apply list.Forall_forall. intros c [_ Hc]%list_elem_of_filter.
    rewrite list.Forall_forall in Hpos. by apply Hpos.
Qed.

Lemma calculateHandValue_bounds_witness :
  0 ≤ calculateHandValue (hand king_queen) (Some (card "j" "K" "H" 10))
    ≤ calculateHandValue (hand king_queen) None.
Proof.
  apply (calculateHandValue_bounds (hand king_queen) (card "j" "K" "H" 10)).
  repeat constructor; vm_compute; discriminate.
Defined.

(** ** Round settler *)

(** X5. With a caller index inside [players], the settler never fails, and
    the score written on every player who carries the caller's id is
    decided by the hand of the first such player in [players], not by the
    hand of the player at the caller index. *)
Theorem getRoundScores_first_with_id
    (players : list Player) (callerIndex : Z) (joker : option CardData)
    (caller : Player) :
  at_index players callerIndex = Some caller →
  ∃ first lowest,
    first_with_id (player_id caller) players = Some first
    ∧ is_minimum lowest (hand_values players joker)
    ∧ getRoundScores players callerIndex joker
      = Ok ((λ p, {| playerId := player_id p;
                     roundScore :=
                       if decide (player_id p = player_id caller) then
                         caller_case (calculateHandValue (hand first) joker)
                           lowest
                           (attained lowest (hand_values players joker))
                       else calculateHandValue (hand p) joker |})
            <$> players).
Proof. apply getRoundScores_valid. Qed.

Lemma getRoundScores_first_with_id_witness :
  ∃ first lowest,
    first_with_id (player_id alias) [alice; bob; alias] = Some first
    ∧ is_minimum lowest (hand_values [alice; bob; alias] None)
    ∧ getRoundScores [alice; bob; alias] 2 None
      = Ok ((λ p, {| playerId := player_id p;
                     roundScore :=
                       if decide (player_id p = player_id alias) then
                         caller_case (calculateHandValue (hand first) None)
                           lowest
                           (attained lowest
                              (hand_values [alice; bob; alias] None))
                       else calculateHandValue (hand p) None |})
            <$> [alice; bob; alias]).
Proof.
  apply (getRoundScores_first_with_id [alice; bob; alias] 2 None alias).
  reflexivity.
Defined.

(** The caller at index 2 holds the only lowest hand (2) and still scores
    50: the player at index 0 has the same id and a hand worth 3. *)
Lemma getRoundScores_first_with_id_sample :
  getRoundScores [alice; bob; alias] 2 None
  = Ok [ {| playerId := 1; roundScore := 50 |};
         {| playerId := 2; roundScore := 10 |};
         {| playerId := 1; roundScore := 50 |} ].
Proof. reflexivity. Qed.

Lemma count_one {A} (P : A → Prop) `{!∀ x, Decision (P x)} (l : list A) x :
  NoDup l → x ∈ l → P x →
  (length (filter P l) = 1%nat ↔ ∀ y, y ∈ l → y ≠ x → ¬ P y).
Proof.
  intros Hnd Hx HPx.
  destruct (proj1 (elem_of_Permutation _ _) Hx) as [k Hk].
  rewrite Hk in Hnd. apply list.NoDup_cons in Hnd as [Hxk _].
  rewrite Hk, filter_cons, decide_True by done. cbn [length].
  split.
  - intros Hlen y Hy Hne HPy. rewrite Hk in Hy.
    apply elem_of_cons in Hy as [->|Hy]; [done|].
    assert (y ∈ filter P k) as Hin by by apply list_elem_of_filter.
    destruct (filter P k); [by apply elem_of_nil in Hin|]. simpl in Hlen. lia.
  - intros Hall. f_equal. apply length_zero_iff_nil.
    destruct (filter P k) as [|y t] eqn:E; [done|]. exfalso.
    assert (y ∈ filter P k) as [HPy Hy]%list_elem_of_filter
      by (rewrite E; left).
    apply (Hall y); [rewrite Hk; by right| |done]. by intros ->.
Qed.

Lemma attained_players players joker m :
  attained m (hand_values players joker)
  = length (filter (λ p, calculateHandValue (hand p) joker = m) players).
Proof.
  unfold attained, hand_values.
  symmetry. apply (filter_fmap_length (λ p, calculateHandValue (hand p) joker)).
Qed.

Lemma is_minimum_players players joker lowest :
  is_minimum lowest (hand_values players joker) ↔
  (∃ p, p ∈ players ∧ calculateHandValue (hand p) joker = lowest)
  ∧ ∀ p, p ∈ players → lowest ≤ calculateHandValue (hand p) joker.
Proof.
  unfold is_minimum, hand_values.
  rewrite list_elem_of_fmap, Forall_fmap, list.Forall_forall.
  split; intros [(p & ? & ?) Hle]; (split; [by exists p|done]).
Qed.

(** X6. With pairwise distinct ids and a caller index inside [players],
    the caller scores 0 exactly when every other player holds strictly
    more, 25 exactly when nobody holds less and some other player holds
    the same, and 50 exactly when some player holds less. *)
Theorem getRoundScores_caller_outcome
    (players : list Player) (callerIndex : Z) (joker : option CardData)
    (caller : Player) :
  NoDup (player_id <$> players) →
  at_index players callerIndex = Some caller →
  ∃ scores s,
    getRoundScores players callerIndex joker = Ok scores
    ∧ at_index scores callerIndex = Some s
    ∧ (roundScore s = 0 ↔
         ∀ p, p ∈ players → p ≠ caller →
              calculateHandValue (hand caller) joker
              < calculateHandValue (hand p) joker)
    ∧ (roundScore s = 25 ↔
         (∀ p, p ∈ players →
               calculateHandValue (hand caller) joker
               ≤ calculateHandValue (hand p) joker)
         ∧ ∃ p, p ∈ players ∧ p ≠ caller
                ∧ calculateHandValue (hand p) joker
                  = calculateHandValue (hand caller) joker)
    ∧ (roundScore s = 50 ↔
         ∃ p, p ∈ players
              ∧ calculateHandValue (hand p) joker
                < calculateHandValue (hand caller) joker).
Proof.
  intros Hnd Hcaller.
  destruct (getRoundScores_valid _ _ joker _ Hcaller)
    as (first & lowest & Hfirst & Hlowest & ->).
  pose proof Hcaller as Hidx. apply at_index_Some in Hidx as [H0 Hk].
  rewrite (first_with_id_distinct _ _ _ Hnd Hk) in Hfirst.
  injection Hfirst as <-.
  set (v := λ p, calculateHandValue (hand p) joker).
  assert (Hin : caller ∈ players) by by eapply list_elem_of_lookup_2.
  assert (Hnd' : NoDup players) by by eapply NoDup_fmap_1.
  apply is_minimum_players in Hlowest as [(pmin & Hpmin & Hvmin) Hle].
  assert (Hone : v caller = lowest →
            (attained lowest (hand_values players joker) = 1%nat
             ↔ ∀ p, p ∈ players → p ≠ caller → v p ≠ lowest)).
  { intros Hv. rewrite attained_players.
    apply (count_one (λ p, v p = lowest)); done. }
  assert (Hpos : v caller = lowest →
            (1 ≤ attained lowest (hand_values players joker))%nat).
  { intros Hv. rewrite attained_players.
    assert (caller ∈ filter (λ p, calculateHandValue (hand p) joker = lowest)
                       players) as Hc
      by by apply list_elem_of_filter.
    destruct (filter (λ p, calculateHandValue (hand p) joker = lowest)
                players);
      [by apply elem_of_nil in Hc|simpl; lia]. }
  eexists _, _. split; [done|]. split.
  { unfold at_index. rewrite decide_True by done.
    by rewrite list_lookup_fmap, Hk. }
  cbn [roundScore]. rewrite decide_True by done.
  fold (v caller). unfold caller_case.
  set (cnt := attained lowest (hand_values players joker)) in *.
  assert (Hlow : v caller = lowest ↔ ∀ p, p ∈ players → v caller ≤ v p).
  { split.
    - intros Hv p Hp. specialize (Hle p Hp). unfold v in *. lia.
    - intros Hall. specialize (Hall pmin Hpmin). specialize (Hle caller Hin).
      unfold v in *. lia. }
  assert (Hless : v caller ≠ lowest ↔ ∃ p, p ∈ players ∧ v p < v caller).
  { split.
    - intros Hv. exists pmin. split; [done|]. specialize (Hle caller Hin).
      unfold v in *. lia.
    - intros (p & Hp & Hlt) Hv. specialize (Hle p Hp). unfold v in *. lia. }
  destruct (decide (v caller = lowest ∧ cnt = 1%nat)) as [[Hv H1]|Hn1];
    [|destruct (decide (v caller = lowest ∧ (1 < cnt)%nat)) as [[Hv Hm]|Hnm]].
  - pose proof (proj1 (Hone Hv) H1) as Hothers. split_and!.
    + split; [|done]. intros _ p Hp Hne.
      pose proof (Hothers p Hp Hne). pose proof (proj1 Hlow Hv p Hp).
      unfold v in *. lia.
    + split; [done|]. intros [_ (p & Hp & Hne & Hvp)]. exfalso.
      apply (Hothers p Hp Hne). unfold v in *. lia.
    + split; [done|]. intros Hex. by apply Hless in Hex.
  - assert (cnt ≠ 1%nat) as Hc by lia. split_and!.
    + split; [done|]. intros Hall. exfalso. apply Hc, (proj2 (Hone Hv)).
      intros p Hp Hne. specialize (Hall p Hp Hne). unfold v in *. lia.
    + split; [|done]. intros _. split; [by apply Hlow|].
      destruct (decide (Exists (λ p, p ≠ caller ∧ v p = v caller) players))
        as [Hex|Hno]; [by apply list.Exists_exists in Hex|]. exfalso.
      apply Hc, (proj2 (Hone Hv)). intros p Hp Hne Hvp. apply Hno.
      apply list.Exists_exists. exists p. split_and!; [done..|].
      unfold v in *. lia.
    + split; [done|]. intros Hex. by apply Hless in Hex.
  - assert (v caller ≠ lowest) as Hv.
    { intros Hv. specialize (Hpos Hv). fold cnt in Hpos.
      destruct (decide (cnt = 1%nat)); [tauto|]. apply Hnm. split; [done|lia]. }
    split_and!.
    + split; [done|]. intros Hall. exfalso.
      apply Hless in Hv as (p & Hp & Hlt).
      destruct (decide (p = caller)) as [->|Hne]; [lia|].
      specialize (Hall p Hp Hne). unfold v in *. lia.
    + split; [done|]. intros [Hall _]. by apply Hlow in Hall.
    + split; [|done]. intros _. by apply Hless.
Qed.

Lemma getRoundScores_caller_outcome_witness :
  ∃ scores s,
    getRoundScores [alice; bob; carol] 0 None = Ok scores
    ∧ at_index scores 0 = Some s
    ∧ (roundScore s = 0 ↔
         ∀ p, p ∈ [alice; bob; carol] → p ≠ alice →
              calculateHandValue (hand alice) None
              < calculateHandValue (hand p) None)
    ∧ (roundScore s = 25 ↔
         (∀ p, p ∈ [alice; bob; carol] →
               calculateHandValue (hand alice) None
               ≤ calculateHandValue (hand p) None)
         ∧ ∃ p, p ∈ [alice; bob; carol] ∧ p ≠ alice
                ∧ calculateHandValue (hand p) None
                  = calculateHandValue (hand alice) None)
    ∧ (roundScore s = 50 ↔
         ∃ p, p ∈ [alice; bob; carol]
              ∧ calculateHandValue (hand p) None
                < calculateHandValue (hand alice) None).
Proof.
  apply (getRoundScores_caller_outcome [alice; bob; carol] 0 None alice).
  - apply (bool_decide_unpack _). vm_compute. exact I.
  - reflexivity.
Defined.

(** X7. A player who is alone at the table and calls scores 0, whatever
    the hand and the joker. *)
Theorem getRoundScores_single_player (p : Player) (joker : option CardData) :
  getRoundScores [p] 0 joker
  = Ok [ {| playerId := player_id p; roundScore := 0 |} ].
Proof.
  destruct (getRoundScores_valid [p] 0 joker p eq_refl)
    as (first & lowest & Hfirst & [Hin _] & ->).
  unfold first_with_id in Hfirst. rewrite filter_cons, decide_True in Hfirst by done.
  injection Hfirst as <-.
  apply list_elem_of_singleton in Hin as ->.
  cbn [fmap list_fmap]. rewrite decide_True by done.
  unfold caller_case, attained, hand_values. cbn [fmap list_fmap].
  rewrite filter_cons, (decide_True (P := _ = _)) by done.
  by rewrite decide_True.
Qed.

(** ** Bot policy *)

Lemma has_pair_cards hand :
  has_pair hand ↔ ∃ r c0 c1 rest, cards_of_rank r hand = c0 :: c1 :: rest.
Proof.
  split.
  - intros [r Hr]. exists r.
    destruct (cards_of_rank r hand) as [|c0 [|c1 rest]]; simpl in Hr;
      [lia..|]. eauto.
  - intros (r & c0 & c1 & rest & Hr). exists r. rewrite Hr. simpl. lia.
Qed.

(** The loop over the rank groups: it returns the first two cards of a
    group when the hand has a pair, and runs to its end otherwise. *)
Lemma find_pair_cases hand :
  (∃ r c0 c1 rest,
     cards_of_rank r hand = c0 :: c1 :: rest
     ∧ find_pair (foldl count_card [] hand)
         (own_keys (foldl count_card [] hand))
       = Ok (Some (TOSS [card_id c0; card_id c1])))
  ∨ (¬ has_pair hand
     ∧ find_pair (foldl count_card [] hand)
         (own_keys (foldl count_card [] hand)) = Ok None).
Proof.
  set (P := λ r, (2 ≤ length (cards_of_rank r hand))%nat).
  set (o := foldl count_card [] hand).
  assert (Hkeys : ∀ k, k ∈ own_keys o ↔ k ∈ rank <$> hand).
  { intros k. unfold o.
    by rewrite own_keys_elem_of, rankCounts_keys, first_seen_ranks_elem_of. }
  destruct (list_find P (own_keys o)) as [[i r]|] eqn:Hfind.
  - left. apply list_find_Some in Hfind as (Hi & Hr & Hbefore).
    destruct (list_elem_of_split_length _ _ _ Hi) as (l1 & l2 & Hsplit & ->).
    destruct (cards_of_rank r hand) as [|c0 [|c1 rest]] eqn:Hcards;
      [unfold P in Hr; rewrite Hcards in Hr; simpl in Hr; lia..|].
    exists r, c0, c1, rest. split; [done|]. rewrite Hsplit. unfold o.
    apply (find_pair_first hand l1 r l2 c0 c1 rest); [|done].
    intros k Hk. split.
    + apply Hkeys. rewrite Hsplit, elem_of_app. by left.
    + apply list_elem_of_lookup in Hk as [j Hj].
      assert (¬ P k) as Hnk; [|unfold P in Hnk; lia].
      apply (Hbefore j).
      * rewrite Hsplit. by apply lookup_app_l_Some.
      * by apply lookup_lt_Some in Hj.
  - right. apply list_find_None in Hfind.
    rewrite list.Forall_forall in Hfind. split.
    + intros [r Hr]. apply (Hfind r); [|done]. apply Hkeys.
      destruct (decide (r ∈ rank <$> hand)) as [|Hn]; [done|].
      rewrite (cards_of_rank_nil _ _ Hn) in Hr. simpl in Hr. lia.
    + apply find_pair_none. intros k Hk. split; [by apply Hkeys|].
      apply Hfind in Hk. unfold P in Hk. lia.
Qed.

(** The three ways out of [decideBotAction]. *)
Lemma decideBotAction_cases player joker tossedThisTurn :
  (tossedThisTurn = false
   ∧ ∃ r c0 c1 rest,
       cards_of_rank r (hand player) = c0 :: c1 :: rest
       ∧ decideBotAction player joker tossedThisTurn
         = Ok (TOSS [card_id c0; card_id c1]))
  ∨ ((tossedThisTurn = true ∨ ¬ has_pair (hand player))
     ∧ calculateHandValue (hand player) joker ≤ 5
     ∧ decideBotAction player joker tossedThisTurn = Ok SHOW)
  ∨ ((tossedThisTurn = true ∨ ¬ has_pair (hand player))
     ∧ 5 < calculateHandValue (hand player) joker
     ∧ ∃ before c after,
         hand player = before ++ c :: after
         ∧ decideBotAction player joker tossedThisTurn
           = Ok (DISCARD [card_id c])
         ∧ Forall (λ c', contribution joker c' < contribution joker c) before
         ∧ Forall (λ c', contribution joker c' ≤ contribution joker c) after).
Proof.
  assert (Hrest :
    (tossedThisTurn = true ∨ ¬ has_pair (hand player)) →
    (if negb tossedThisTurn then
       find_pair (foldl count_card [] (hand player))
         (own_keys (foldl count_card [] (hand player)))
     else Ok None) = Ok None →
    (calculateHandValue (hand player) joker ≤ 5
     ∧ decideBotAction player joker tossedThisTurn = Ok SHOW)
    ∨ (5 < calculateHandValue (hand player) joker
       ∧ ∃ before c after,
           hand player = before ++ c :: after
           ∧ decideBotAction player joker tossedThisTurn
             = Ok (DISCARD [card_id c])
           ∧ Forall (λ c', contribution joker c' < contribution joker c)
               before
           ∧ Forall (λ c', contribution joker c' ≤ contribution joker c)
               after)).
  { intros _ Hskip. unfold decideBotAction. rewrite Hskip. cbn [rbind].
    destruct (decide (calculateHandValue (hand player) joker ≤ 5)) as [Hle|Hgt].
    - by left.
    - right. split; [lia|].
      destruct (discard_scan (hand player) joker)
        as (before & c & after & Hs & Hfold & Hb & Ha); [lia|].
      exists before, c, after. by rewrite Hfold. }
  destruct tossedThisTurn.
  - right. destruct (Hrest (or_introl eq_refl) eq_refl) as [[Hv H]|[Hv H]].
    + left. split_and!; [by left|done..].
    + right. split_and!; [by left|done..].
  - destruct (find_pair_cases (hand player))
      as [(r & c0 & c1 & rest & Hr & Hfind)|[Hno Hfind]].
    + left. split; [done|]. exists r, c0, c1, rest. split; [done|].
      unfold decideBotAction. cbn [negb]. by rewrite Hfind.
    + right. destruct (Hrest (or_intror Hno) Hfind) as [[Hv H]|[Hv H]].
      * left. split_and!; [by right|done..].
      * right. split_and!; [by right|done..].
Qed.

(** At a rank that [Object.prototype] does not name, the body does what
    [count_card] does. *)
Lemma count_card_proto_own o c :
  ¬ inherited (rank c) → count_card_proto o c = Ok (count_card o c).
Proof.
  intros Hc. unfold count_card_proto, count_card, get_property.
  destruct (obj_get o (rank c)) as [cards|] eqn:E.
  - by rewrite E.
  - rewrite decide_False by done. by rewrite !obj_get_set_eq.
Qed.

Lemma count_card_proto_inherited o c :
  inherited (rank c) → obj_get o (rank c) = None →
  count_card_proto o c = TypeError.
Proof.
  intros Hc E. unfold count_card_proto, get_property.
  rewrite E. destruct (decide (inherited (rank c))); [|done].
  by rewrite E.
Qed.

Lemma rankCounts_proto_own hand o :
  Forall (λ c, ¬ inherited (rank c)) hand →
  foldl_r count_card_proto o hand = Ok (foldl count_card o hand).
Proof.
  intros Hhand. revert o.
  induction Hhand as [|c hand Hc _ IH]; intros o; [done|].
  cbn [foldl_r foldl]. rewrite count_card_proto_own by done. apply IH.
Qed.

Lemma rankCounts_proto_inherited hand o :
  (∀ k, inherited k → obj_get o k = None) →
  Exists (λ c, inherited (rank c)) hand →
  foldl_r count_card_proto o hand = TypeError.
Proof.
  intros Ho Hhand. revert o Ho.
  induction hand as [|c hand IH]; intros o Ho; [by inversion Hhand|].
  cbn [foldl_r]. destruct (decide (inherited (rank c))) as [Hc|Hc].
  - by rewrite count_card_proto_inherited by auto.
  - rewrite count_card_proto_own by done. cbn [rbind].
    apply IH.
    + by apply Exists_cons in Hhand as [?|?].
    + intros k Hk. rewrite count_card_get, decide_False; [by apply Ho|].
      by intros <-.
Qed.

(** X8. [decideBotAction] throws in one case only: when it groups the hand
    (no toss was made this turn) and the rank of some card is a name of
    [Object.prototype], which no member of [Rank] is; there
    [rankCounts[card.rank].push] is not a function. In every other case it
    returns an action, the one that [decideBotAction], which looks among
    own properties only, computes. *)
Theorem decideBotAction_throws_iff
    (player : Player) (joker : option CardData) (tossedThisTurn : bool) :
  if decide (tossedThisTurn = false
             ∧ Exists (λ c, inherited (rank c)) (hand player))
  then decideBotAction_proto player joker tossedThisTurn = TypeError
  else ∃ action,
         decideBotAction_proto player joker tossedThisTurn = Ok action
         ∧ decideBotAction player joker tossedThisTurn = Ok action.
Proof.
  destruct (decide _) as [[-> Hhand]|Hno].
  - unfold decideBotAction_proto. cbn [negb].
    by rewrite rankCounts_proto_inherited.
  - assert (decideBotAction_proto player joker tossedThisTurn
            = decideBotAction player joker tossedThisTurn) as ->.
    { unfold decideBotAction_proto, decideBotAction.
      destruct tossedThisTurn; [done|]. cbn [negb].
      rewrite rankCounts_proto_own; [done|].
      apply not_Exists_Forall; [apply _|]. naive_solver. }
    destruct (decideBotAction_cases player joker tossedThisTurn)
      as [(_ & r & c0 & c1 & rest & _ & ->)
         |[(_ & _ & ->)|(_ & _ & before & c & after & _ & -> & _)]];
      by eexists.
Qed.

Lemma decideBotAction_proto_stray :
  decideBotAction_proto stray None false = TypeError
  ∧ decideBotAction_proto stray None true = Ok (DISCARD ["z2"]).
Proof. by vm_compute. Qed.

(** X9. The bot tosses exactly when no toss was made this turn and some
    rank occurs twice in the hand. *)
Theorem decideBotAction_toss_iff
    (player : Player) (joker : option CardData) (tossedThisTurn : bool) :
  (∃ ids, decideBotAction player joker tossedThisTurn = Ok (TOSS ids))
  ↔ tossedThisTurn = false ∧ has_pair (hand player).
Proof.
  destruct (decideBotAction_cases player joker tossedThisTurn)
    as [(Hf & r & c0 & c1 & rest & Hr & H)
       |[(Hskip & _ & H)|(Hskip & _ & before & c & after & _ & H & _)]];
    rewrite H.
  - split; [|by eexists]. intros _. split; [done|].
    apply has_pair_cards. eauto.
  - split; [by intros [? ?]|]. intros [-> Hp]. by destruct Hskip.
  - split; [by intros [? ?]|]. intros [-> Hp]. by destruct Hskip.
Qed.

Lemma filter_two_positions {A} (P : A → Prop) `{!∀ x, Decision (P x)}
    (l : list A) x y rest :
  filter P l = x :: y :: rest →
  ∃ i j : nat, (i < j)%nat ∧ l !! i = Some x ∧ l !! j = Some y ∧ P x ∧ P y.
Proof.
  induction l as [|z l IH]; [done|].
  rewrite filter_cons. destruct (decide (P z)) as [Hz|Hz].
  - intros [= -> Hl].
    assert (y ∈ filter P l) as [Hy [j Hj]%list_elem_of_lookup]%list_elem_of_filter
      by (rewrite Hl; left).
    exists 0%nat, (S j). split_and!; [lia|done..].
  - intros (i & j & Hij & Hi & Hj & Hx & Hy)%IH.
    exists (S i), (S j). split_and!; [lia|done..].
Qed.

(** X10. A toss names two cards of the hand: the ids of two cards at
    different places of the hand, in hand order, that have the same rank. *)
Theorem decideBotAction_toss_cards
    (player : Player) (joker : option CardData) (tossedThisTurn : bool)
    (ids : list string) :
  decideBotAction player joker tossedThisTurn = Ok (TOSS ids) →
  ∃ (i j : nat) c0 c1,
    (i < j)%nat
    ∧ hand player !! i = Some c0 ∧ hand player !! j = Some c1
    ∧ rank c0 = rank c1
    ∧ ids = [card_id c0; card_id c1].
Proof.
  destruct (decideBotAction_cases player joker tossedThisTurn)
    as [(Hf & r & c0 & c1 & rest & Hr & H)
       |[(Hskip & _ & H)|(Hskip & _ & before & c & after & _ & H & _)]];
    rewrite H; [|done..].
  intros [= <-].
  apply filter_two_positions in Hr as (i & j & Hij & Hi & Hj & H0 & H1).
  exists i, j, c0, c1. split_and!; [done..|congruence|done].
Qed.

Lemma decideBotAction_toss_cards_witness :
  ∃ (i j : nat) c0 c1,
    (i < j)%nat
    ∧ hand two_pairs !! i = Some c0 ∧ hand two_pairs !! j = Some c1
    ∧ rank c0 = rank c1
    ∧ ["h3"; "h4"]%string = [card_id c0; card_id c1].
Proof.
  apply (decideBotAction_toss_cards two_pairs None false).
  reflexivity.
Defined.

(** X11. The bot shows exactly when it does not toss (a toss was made this
    turn, or no rank occurs twice) and the hand is worth at most 5; an
    empty hand is always shown. *)
Theorem decideBotAction_show_iff
    (player : Player) (joker : option CardData) (tossedThisTurn : bool) :
  decideBotAction player joker tossedThisTurn = Ok SHOW
  ↔ (tossedThisTurn = true ∨ ¬ has_pair (hand player))
    ∧ calculateHandValue (hand player) joker ≤ 5.
Proof.
  destruct (decideBotAction_cases player joker tossedThisTurn)
    as [(Hf & r & c0 & c1 & rest & Hr & H)
       |[(Hskip & Hv & H)|(Hskip & Hv & before & c & after & _ & H & _)]];
    rewrite H.
  - split; [done|]. intros [[->|Hno] _]; [done|].
    destruct Hno. apply has_pair_cards. eauto.
  - done.
  - split; [done|]. intros [_ ?]. lia.
Qed.

(** X12. A discard names one card of the hand. It is only made on a hand
    worth more than 5; the card counts for at least 1 under the joker, so
    it is never the joker, and no card of the hand counts for more. *)
Theorem decideBotAction_discard_card
    (player : Player) (joker : option CardData) (tossedThisTurn : bool)
    (ids : list string) :
  decideBotAction player joker tossedThisTurn = Ok (DISCARD ids) →
  5 < calculateHandValue (hand player) joker
  ∧ ∃ c, c ∈ hand player
         ∧ ids = [card_id c]
         ∧ 1 ≤ contribution joker c
         ∧ (∀ j, joker = Some j → ¬ (rank c = rank j ∧ suit c = suit j))
         ∧ ∀ c', c' ∈ hand player → contribution joker c' ≤ contribution joker c.
Proof.
  destruct (decideBotAction_cases player joker tossedThisTurn)
    as [(Hf & r & c0 & c1 & rest & Hr & H)
       |[(Hskip & Hv & H)|(Hskip & Hv & before & c & after & Hs & H & Hb & Ha)]];
    rewrite H; [done..|].
  intros [= <-]. split; [done|].
  assert (Hmax : ∀ c', c' ∈ hand player →
                       contribution joker c' ≤ contribution joker c).
  { intros c'. rewrite Hs, elem_of_app, elem_of_cons.
    rewrite list.Forall_forall in Hb, Ha.
    intros [Hc'|[->|Hc']]; [apply Hb in Hc'; lia|lia|by apply Ha]. }
  assert (Hpos : 1 ≤ contribution joker c).
  { destruct (decide (1 ≤ contribution joker c)) as [|Hn]; [done|]. exfalso.
    rewrite calculateHandValue_contribution in Hv.
    assert (sumZ (contribution joker <$> hand player) ≤ 0); [|lia].
    apply sumZ_nonpos, Forall_fmap, list.Forall_forall.
    intros c' Hc'. specialize (Hmax c' Hc'). simpl. lia. }
  exists c. split_and!; [|done..| |done].
  - rewrite Hs, elem_of_app, elem_of_cons. auto.
  - intros j -> Hj. unfold contribution in Hpos.
    rewrite decide_True in Hpos by done. lia.
Qed.

Lemma decideBotAction_discard_card_witness :
  5 < calculateHandValue (hand king_queen) None
  ∧ ∃ c, c ∈ hand king_queen
         ∧ ["k2"%string] = [card_id c]
         ∧ 1 ≤ contribution None c
         ∧ (∀ j, None = Some j → ¬ (rank c = rank j ∧ suit c = suit j))
         ∧ ∀ c', c' ∈ hand king_queen →
                 contribution None c' ≤ contribution None c.
Proof.
  apply (decideBotAction_discard_card king_queen None false).
  reflexivity.
Defined.

(** X13. The toss does not look at the joker: on a hand with a pair, and
    before any toss this turn, the answer is the same under every joker,
    also when a card of the pair is the joker. *)
Theorem decideBotAction_toss_ignores_joker
    (player : Player) (joker joker' : option CardData) :
  has_pair (hand player) →
  decideBotAction player joker false = decideBotAction player joker' false.
Proof.
  intros Hpair.
  destruct (find_pair_cases (hand player))
    as [(r & c0 & c1 & rest & Hr & Hfind)|[Hno _]]; [|done].
  unfold decideBotAction. cbn [negb]. by rewrite Hfind.
Qed.

Lemma decideBotAction_toss_ignores_joker_witness :
  decideBotAction two_pairs None false
  = decideBotAction two_pairs (Some (card "h3" "7" "S" 7)) false.
Proof.
  apply (decideBotAction_toss_ignores_joker two_pairs None
           (Some (card "h3" "7" "S" 7))).
  exists "9"%string. vm_compute. lia.
Defined.

(** ** The rank groups of the bot *)

(** X23. After the loop over the hand, the rank-keyed object has one key
    per rank of the hand, created in the order in which the hand first
    shows the ranks; under a rank it holds the cards of that rank, all of
    them and in hand order, and under any other key nothing. *)
Theorem rankCounts_groups (hand : list CardData) (r : string) :
  (foldl count_card [] hand).*1 = first_seen_ranks hand
  ∧ NoDup (first_seen_ranks hand)
  ∧ (∀ k, k ∈ first_seen_ranks hand ↔ k ∈ rank <$> hand)
  ∧ obj_get (foldl count_card [] hand) r
    = if decide (r ∈ rank <$> hand) then Some (cards_of_rank r hand)
      else None.
Proof.
  split_and!.
  - apply rankCounts_keys.
  - apply first_seen_ranks_NoDup.
  - intros k. apply first_seen_ranks_elem_of.
  - apply rankCounts_get.
Qed.

(** ** Shuffle *)

Lemma double_of_valid (c s : N) :
  unit_double c s = true →
  numer (double_of c s) = c ∧ denom (double_of c s) = (2 ^ s)%N.
Proof. intros H. unfold denom, double_of. cbn [numer scale]. by rewrite H. Qed.

(** On every array JS can hold, [pick j i] makes the loop draw [j] at
    index [i]. *)
Lemma floor_times_pick (j i : nat) :
  (N.of_nat (i + 1) ≤ 2 ^ 32)%N → (j ≤ i)%nat →
  floor_times (pick j i) (i + 1) = j.
Proof.
  intros Hlen Hj. unfold floor_times, pick.
  set (n := N.of_nat (i + 1)) in *.
  assert (0 < n)%N as Hn by lia.
  destruct (N.log2_spec n Hn) as [Hlo Hhi].
  assert (N.log2 n ≤ 32)%N as Hlog.
  { change 32%N with (N.log2 (2 ^ 32)). by apply N.log2_le_mono. }
  set (t := (N.log2 n + 1)%N) in *.
  assert (2 ^ t = 2 * 2 ^ N.log2 n)%N as Ht.
  { unfold t. by rewrite N.add_1_r, N.pow_succ_r'. }
  assert (2 ^ (t + 1) = 2 * 2 ^ t)%N as Ht1.
  { by rewrite N.add_1_r, N.pow_succ_r'. }
  assert (2 ^ (t + 2) = 4 * 2 ^ t)%N as Ht2.
  { replace (t + 2)%N with (N.succ (N.succ t)) by lia.
    rewrite !N.pow_succ_r'. lia. }
  assert (2 ^ t ≤ 2 ^ 33)%N as Hbound.
  { apply N.pow_le_mono_r; lia. }
  set (T := (2 ^ t)%N) in *.
  assert (n < T)%N as HnT by (unfold T, t; by rewrite N.add_1_r).
  set (a := ((2 * N.of_nat j + 1) * 2 ^ (t + 1))%N).
  set (c := (a `div` n)%N).
  assert (c * n ≤ a)%N as Hfloor.
  { rewrite N.mul_comm. apply N.Div0.mul_div_le. }
  assert (a < c * n + n)%N as Hceil.
  { pose proof (N.div_mod a n ltac:(lia)) as Hdm.
    pose proof (N.mod_lt a n ltac:(lia)). fold c in Hdm. lia. }
  assert (a = (2 * N.of_nat j + 1) * (2 * T))%N as Ha by (unfold a; by rewrite Ht1).
  assert (N.of_nat j < n)%N as Hjn by lia.
  assert (c < 4 * T)%N as Hc by nia.
  assert (unit_double c (t + 2) = true) as Hvalid.
  { unfold unit_double. rewrite Ht2.
    repeat (apply andb_true_intro; split).
    - apply N.ltb_lt. assert (2 ^ 53 = 9007199254740992)%N by done.
      assert (2 ^ 33 = 8589934592)%N by done. lia.
    - by apply N.ltb_lt.
    - apply N.leb_le. lia. }
  destruct (double_of_valid _ _ Hvalid) as [-> ->]. rewrite Ht2.
  destruct (round53_error (c * n)) as (d & Hround & Hd).
  set (R := round53 (c * n)) in *.
  assert (2 ^ 53 = 9007199254740992)%N as HP by done. rewrite HP in Hd.
  assert (2 ^ 33 = 8589934592)%N as HQ by done. rewrite HQ in Hbound.
  assert (2 ^ 32 = 4294967296)%N as HL by done. rewrite HL in Hlen.
  assert (a < 2 * n * (2 * T))%N as Ha' by nia.
  assert (d < T)%N as HdT by nia.
  assert (R `div` (4 * T) = N.of_nat j)%N as ->; [|lia].
  symmetry. apply (N.div_unique _ _ _ (R - 4 * T * N.of_nat j)); nia.
Qed.

Lemma draws_ext random random' calls (i : nat) :
  (∀ k, (calls ≤ k < calls + i)%nat →
        numer (random k) = numer (random' k)
        ∧ denom (random k) = denom (random' k)) →
  draws random calls i = draws random' calls i.
Proof.
  revert calls. induction i as [|i IH]; intros calls Hsame; [done|].
  cbn [draws]. f_equal.
  - unfold floor_times. destruct (Hsame calls) as [-> ->]; [lia|done].
  - apply IH. intros k Hk. apply Hsame. lia.
Qed.

Lemma draws_realized (i calls : nat) (js : list nat) :
  (N.of_nat (i + 1) ≤ 2 ^ 32)%N →
  Forall2 (λ i j : nat, (j ≤ i)%nat) (reverse (seq 1 i)) js →
  ∃ random, draws random calls i = js.
Proof.
  revert calls js. induction i as [|i IH]; intros calls js Hlen Hjs.
  - apply Forall2_nil_inv_l in Hjs as ->. by exists (λ _, pick 0 0).
  - rewrite (countdown_S i) in Hjs.
    apply Forall2_cons_inv_l in Hjs as (j & js' & Hj & Hjs' & ->).
    destruct (IH (S calls) js') as [random Hrandom]; [lia|done|].
    exists (λ k, if decide (k = calls) then pick j (S i) else random k).
    cbn [draws]. rewrite decide_True by done. f_equal.
    + by apply floor_times_pick.
    + rewrite <- Hrandom. apply draws_ext. intros k Hk.
      rewrite decide_False by lia. done.
Qed.

Section shuffle_more.
Context {T : Type}.
Implicit Types (a b : list T) (h : store T).

Lemma swap_elems_lookup_i a (i j : nat) y :
  (i < length a)%nat → a !! j = Some y → swap_elems a i j !! i = Some y.
Proof.
  intros Hi Hj. unfold swap_elems.
  destruct (lookup_lt_is_Some_2 a i Hi) as [x Hx]. rewrite Hx, Hj.
  destruct (decide (i = j)) as [->|Hne].
  - rewrite list_lookup_insert_eq by (rewrite length_insert; lia). congruence.
  - rewrite list_lookup_insert_ne by done. by apply list_lookup_insert_eq.
Qed.

Lemma swap_elems_lookup_ne a (i j k : nat) :
  k ≠ i → k ≠ j → swap_elems a i j !! k = a !! k.
Proof.
  intros Hi Hj. unfold swap_elems. repeat case_match; [|done..].
  by rewrite !list_lookup_insert_ne.
Qed.

Lemma swap_elems_take a (i j m : nat) :
  (i < m)%nat → (j < m)%nat → take m (swap_elems a i j) ≡ₚ take m a.
Proof.
  intros Hi Hj. rewrite <- (swap_elems_Permutation (take m a) i j).
  unfold swap_elems. rewrite !lookup_take_lt by done.
  repeat case_match; [|done..]. by rewrite !take_insert_lt.
Qed.

Lemma swap_elems_drop a (i j m : nat) :
  (i < m)%nat → (j < m)%nat → drop m (swap_elems a i j) = drop m a.
Proof.
  intros Hi Hj. unfold swap_elems. repeat case_match; [|done..].
  by rewrite !drop_insert_lt.
Qed.

(** Steps at indices below [k] leave the element at [k] in place. *)
Lemma steps_keep a (steps : list (nat * nat)) (k : nat) :
  Forall (λ ij, (ij.1 < k)%nat ∧ (ij.2 < k)%nat) steps →
  foldl (λ a ij, swap_elems a ij.1 ij.2) a steps !! k = a !! k.
Proof.
  revert a. induction steps as [|[i j] steps IH]; intros a Hsteps; [done|].
  apply Forall_cons_1 in Hsteps as [[Hi Hj] Hsteps]. cbn [foldl fst snd] in *.
  rewrite IH by done. apply swap_elems_lookup_ne; lia.
Qed.

Lemma countdown_steps_below (i k : nat) (js : list nat) :
  (i < k)%nat →
  Forall2 (λ i j : nat, (j ≤ i)%nat) (reverse (seq 1 i)) js →
  Forall (λ ij, (ij.1 < k)%nat ∧ (ij.2 < k)%nat)
         (zip (reverse (seq 1 i)) js).
Proof.
  revert js. induction i as [|i IH]; intros js Hk Hjs.
  - apply Forall2_nil_inv_l in Hjs as ->. constructor.
  - rewrite (countdown_S i) in Hjs |- *.
    apply Forall2_cons_inv_l in Hjs as (j & js' & Hj & Hjs' & ->).
    cbn [zip zip_with]. constructor; [simpl; lia|]. apply IH; [lia|done].
Qed.

(** Every arrangement of the first [S i] elements is reached by some
    choice of the indices drawn at [i], [i - 1], ..., 1. *)
Lemma fisher_yates_reaches (i : nat) a b :
  (S i ≤ length a)%nat →
  take (S i) a ≡ₚ take (S i) b →
  drop (S i) a = drop (S i) b →
  ∃ js, Forall2 (λ i j : nat, (j ≤ i)%nat) (reverse (seq 1 i)) js
        ∧ foldl (λ a ij, swap_elems a ij.1 ij.2) a
            (zip (reverse (seq 1 i)) js) = b.
Proof.
  revert a. induction i as [|i IH]; intros a Hlen Htake Hdrop.
  - exists []. split; [constructor|]. cbn.
    destruct a as [|x a]; [simpl in Hlen; lia|].
    destruct b as [|y b].
    { apply Permutation_nil_r in Htake. done. }
    cbn in Htake. apply Permutation_singleton_inj in Htake.
    change (a = b) in Hdrop. congruence.
  - assert (Hlenb : (S (S i) ≤ length b)%nat).
    { apply Permutation_length in Htake.
      rewrite length_take_le, length_take in Htake by done. lia. }
    destruct (lookup_lt_is_Some_2 b (S i)) as [y Hy]; [lia|].
    assert (y ∈ take (S (S i)) a) as Hin.
    { rewrite Htake. apply elem_of_take. exists (S i). split; [done|lia]. }
    apply elem_of_take in Hin as (j & Hj & Hjlt).
    set (a1 := swap_elems a (S i) j).
    assert (Ha1 : a1 !! S i = Some y)
      by (apply swap_elems_lookup_i; [lia|done]).
    destruct (IH a1) as (js & Hjs & Hrun).
    + unfold a1. rewrite swap_elems_length. lia.
    + apply (Permutation_app_inv_r [y]).
      rewrite <- (take_S_r a1 (S i) y), <- (take_S_r b (S i) y) by done.
      unfold a1. rewrite swap_elems_take by lia. done.
    + rewrite (drop_S a1 y (S i)), (drop_S b y (S i)) by done. f_equal.
      unfold a1. rewrite swap_elems_drop by lia. done.
    + exists (j :: js). rewrite (countdown_S i). split.
      * constructor; [lia|done].
      * cbn [zip zip_with foldl fst snd]. exact Hrun.
Qed.

(** X14. An array of at most one element is returned as an equal copy, and
    no random number is used. *)
Theorem shuffleDeck_short (random : nat → draw) (h : store T) (deck : nat) :
  (length (read h deck) ≤ 1)%nat →
  shuffleDeck random h deck = (h ++ [read h deck], length h).
Proof.
  intros Hlen. rewrite shuffleDeck_run.
  replace (length (read h deck) - 1)%nat with 0%nat by lia.
  unfold fisher_yates. cbn [draws]. by rewrite zip_with_nil_r.
Qed.

(** X15. The shuffle of an array of [n] elements uses the first [n - 1]
    random numbers and no other: two sources that agree on these give the
    same result. *)
Theorem shuffleDeck_draws (random random' : nat → draw) (h : store T)
    (deck : nat) :
  (∀ k, (k < length (read h deck) - 1)%nat →
        numer (random k) = numer (random' k)
        ∧ denom (random k) = denom (random' k)) →
  shuffleDeck random h deck = shuffleDeck random' h deck.
Proof.
  intros Hsame. rewrite !shuffleDeck_run.
  rewrite (draws_ext random random' 0 (length (read h deck) - 1)); [done|]. intros k Hk. apply Hsame. lia.
Qed.

(** X16. No arrangement is out of reach: for every permutation of an array
    of at most 2^32 elements (every array JS can hold) there is a sequence
    of doubles of [0, 1) on which [shuffleDeck], rounding each product as
    the code does, returns it. *)
Theorem shuffleDeck_reaches (h : store T) (deck : nat) b :
  (N.of_nat (length (read h deck)) ≤ 2 ^ 32)%N →
  b ≡ₚ read h deck →
  ∃ random, shuffleDeck random h deck = (h ++ [b], length h).
Proof.
  intros Hlen Hperm.
  assert (Hrun0 : ∀ random, shuffleDeck random h deck
            = (h ++ [fisher_yates (read h deck)
                       (draws random 0 (length (read h deck) - 1))],
               length h)) by (intros; apply shuffleDeck_run).
  setoid_rewrite Hrun0. clear Hrun0.
  remember (read h deck) as a eqn:Ha. clear Ha.
  assert (∃ js, Forall2 (λ i j : nat, (j ≤ i)%nat)
                  (reverse (seq 1 (length a - 1))) js
                ∧ fisher_yates a js = b) as (js & Hjs & Hrun).
  { destruct a as [|x a'].
    - apply Permutation_nil_r in Hperm as ->. exists []. by split; [constructor|].
    - unfold fisher_yates.
      replace (length (x :: a') - 1)%nat with (length a') by (simpl; lia).
      apply fisher_yates_reaches; [simpl; lia| |].
      + apply Permutation_length in Hperm as Hl. cbn [length] in Hl.
        rewrite !take_ge by (simpl; lia). done.
      + apply Permutation_length in Hperm as Hl. cbn [length] in Hl.
        rewrite !drop_ge by (simpl; lia). done. }
  destruct (draws_realized (length a - 1) 0 js) as [random Hrandom];
    [|exact Hjs|].
  { assert (2 ^ 32 = 4294967296)%N as HL by done. rewrite HL in Hlen |- *.
    lia. }
  exists random. by rewrite Hrandom, Hrun.
Qed.

(** Different draws give different arrangements of distinct elements. *)
Lemma fisher_yates_steps_inj (i : nat) a (js js' : list nat) :
  NoDup a → (i < length a)%nat →
  Forall2 (λ i j : nat, (j ≤ i)%nat) (reverse (seq 1 i)) js →
  Forall2 (λ i j : nat, (j ≤ i)%nat) (reverse (seq 1 i)) js' →
  foldl (λ a ij, swap_elems a ij.1 ij.2) a (zip (reverse (seq 1 i)) js)
  = foldl (λ a ij, swap_elems a ij.1 ij.2) a (zip (reverse (seq 1 i)) js') →
  js = js'.
Proof.
  revert a js js'. induction i as [|i IH]; intros a js js' Hnd Hi Hjs Hjs'.
  - apply Forall2_nil_inv_l in Hjs as ->.
    by apply Forall2_nil_inv_l in Hjs' as ->.
  - rewrite (countdown_S i) in Hjs, Hjs' |- *.
    apply Forall2_cons_inv_l in Hjs as (j & js1 & Hj & Hjs1 & ->).
    apply Forall2_cons_inv_l in Hjs' as (j' & js1' & Hj' & Hjs1' & ->).
    cbn [zip zip_with foldl fst snd]. intros Heq.
    destruct (lookup_lt_is_Some_2 a j) as [y Hy]; [lia|].
    destruct (lookup_lt_is_Some_2 a j') as [y' Hy']; [lia|].
    assert (Hat : ∀ (jj : nat) yy js0,
              a !! jj = Some yy →
              Forall2 (λ i j : nat, (j ≤ i)%nat) (reverse (seq 1 i)) js0 →
              foldl (λ a ij, swap_elems a ij.1 ij.2) (swap_elems a (S i) jj)
                (zip (reverse (seq 1 i)) js0) !! S i = Some yy).
    { intros jj yy js0 Hjj Hjs0.
      rewrite steps_keep by (apply countdown_steps_below; [lia|done]).
      by apply swap_elems_lookup_i. }
    assert (y = y') as <-.
    { pose proof (Hat j y js1 Hy Hjs1) as H1.
      pose proof (Hat j' y' js1' Hy' Hjs1') as H2.
      rewrite Heq in H1. congruence. }
    assert (j = j') as <- by by eapply NoDup_lookup.
    f_equal. apply (IH (swap_elems a (S i) j)); [| |done..].
    + by rewrite swap_elems_Permutation.
    + rewrite swap_elems_length. lia.
Qed.

(** X17. On an array without repeated elements, two runs of [shuffleDeck]
    that return the same arrangement drew the same indices: each
    permutation comes from exactly one sequence of draws. *)
Theorem shuffleDeck_draws_inj (random random' : nat → draw) (h : store T)
    (deck : nat) :
  NoDup (read h deck) →
  shuffleDeck random h deck = shuffleDeck random' h deck →
  draws random 0 (length (read h deck) - 1)
  = draws random' 0 (length (read h deck) - 1).
Proof.
  intros Hnd. rewrite !shuffleDeck_run. intros [= Heq%app_inj_tail].
  destruct Heq as [_ Heq].
  destruct (read h deck) as [|x a] eqn:Ha; [done|].
  apply (fisher_yates_steps_inj (length (x :: a) - 1) (x :: a));
    [done|simpl; lia| | |exact Heq].
  - eapply list.Forall2_impl;
      [apply (draws_in_range _ _ _ (length (x :: a))); simpl; lia
      |by intros ?? [_ ?]].
  - eapply list.Forall2_impl;
      [apply (draws_in_range _ _ _ (length (x :: a))); simpl; lia
      |by intros ?? [_ ?]].
Qed.

End shuffle_more.

Lemma shuffleDeck_short_witness :
  shuffleDeck (λ _, half) [[7%nat]] 0 = ([[7%nat]] ++ [[7%nat]], 1%nat).
Proof.
  apply (shuffleDeck_short (λ _, half) [[7%nat]] 0). simpl. lia.
Defined.

Lemma shuffleDeck_draws_witness :
  shuffleDeck (λ _, half) [[1; 2; 3]%nat] 0
  = shuffleDeck (λ k, if decide (k < 2)%nat then half else pick 0 0)
      [[1; 2; 3]%nat] 0.
Proof.
  apply (shuffleDeck_draws (λ _, half)
           (λ k, if decide (k < 2)%nat then half else pick 0 0)
           [[1; 2; 3]%nat] 0).
  intros k Hk. simpl in Hk. rewrite decide_True by lia. done.
Defined.

Lemma shuffleDeck_reaches_witness :
  ∃ random,
    shuffleDeck random [[1; 2; 3]%nat] 0
    = ([[1; 2; 3]%nat] ++ [[3; 1; 2]%nat], 1%nat).
Proof.
  apply (shuffleDeck_reaches [[1; 2; 3]%nat] 0 [3; 1; 2]%nat).
  - vm_compute. discriminate.
  - apply (bool_decide_unpack _). vm_compute. exact I.
Defined.

Lemma shuffleDeck_draws_inj_witness :
  draws (λ _, half) 0 (length (read [[1; 2; 3]%nat] 0) - 1)
  = draws (λ k, if decide (k = 0)%nat then pick 1 2 else half) 0
      (length (read [[1; 2; 3]%nat] 0) - 1).
Proof.
  apply (shuffleDeck_draws_inj (λ _, half)
           (λ k, if decide (k = 0)%nat then pick 1 2 else half)
           [[1; 2; 3]%nat] 0).
  - apply (bool_decide_unpack _). vm_compute. exact I.
  - reflexivity.
Defined.

(** ** Deck builder *)

Lemma pairs_lookup (SUITS RANKS : list string) (si ri : nat) s r :
  SUITS !! si = Some s → RANKS !! ri = Some r →
  (SUITS ≫= λ s, pair s <$> RANKS) !! (si * length RANKS + ri)%nat
  = Some (s, r).
Proof.
  intros Hs Hr. revert si Hs.
  induction SUITS as [|s0 ss IH]; intros si Hs; [done|].
  rewrite bind_cons. destruct si as [|si]; simplify_eq/=.
  - rewrite lookup_app_l by (rewrite length_fmap; by eapply lookup_lt_Some).
    by rewrite list_lookup_fmap, Hr.
  - rewrite lookup_app_r by (rewrite length_fmap; lia).
    rewrite length_fmap.
    replace (length RANKS + si * length RANKS + ri - length RANKS)%nat
      with (si * length RANKS + ri)%nat by lia.
    by apply IH.
Qed.

Lemma sumZ_pairs (SUITS RANKS : list string) (f : string → Z) :
  sumZ ((λ p : string * string, f p.2) <$> (SUITS ≫= λ s, pair s <$> RANKS))
  = Z.of_nat (length SUITS) * sumZ (f <$> RANKS).
Proof.
  induction SUITS as [|s ss IH]; [done|].
  rewrite bind_cons, fmap_app, sumZ_app, IH, <- list_fmap_compose.
  change ((λ p : string * string, f p.2) ∘ pair s) with f.
  cbn [length]. lia.
Qed.

Lemma value_new_card (RANK_VALUES : string → Z) (n : nat) (s r : string) :
  value (new_card RANK_VALUES n s r) = RANK_VALUES r.
Proof. done. Qed.

Section deck_more.
Variables (SUITS RANKS : list string) (RANK_VALUES : string → Z).

#[local] Abbreviation new_card := (new_card RANK_VALUES).
#[local] Abbreviation ordered_deck := (ordered_deck SUITS RANKS RANK_VALUES).
#[local] Abbreviation createDeck := (createDeck SUITS RANKS RANK_VALUES).

Lemma ordered_deck_lookup (si ri : nat) s r :
  SUITS !! si = Some s → RANKS !! ri = Some r →
  ordered_deck !! (si * length RANKS + ri)%nat
  = Some (new_card (si * length RANKS + ri) s r).
Proof.
  intros Hs Hr.
  pose proof (pairs_lookup SUITS RANKS si ri s r Hs Hr) as Hp.
  rewrite <- (ordered_deck_pairs SUITS RANKS RANK_VALUES) in Hp.
  rewrite list_lookup_fmap in Hp.
  destruct (ordered_deck !! (si * length RANKS + ri)%nat) as [c|] eqn:Hc;
    [|done].
  injection Hp as Hsuit Hrank.
  apply ordered_deck_numbered in Hc. rewrite Hc at 1. by rewrite Hsuit, Hrank.
Qed.

Lemma ordered_deck_values :
  value <$> ordered_deck
  = (λ p : string * string, RANK_VALUES p.2)
      <$> (SUITS ≫= λ s, pair s <$> RANKS).
Proof.
  rewrite <- (ordered_deck_pairs SUITS RANKS RANK_VALUES),
    <- list_fmap_compose.
  apply list_fmap_ext. intros i c Hc.
  apply ordered_deck_numbered in Hc. by rewrite Hc.
Qed.

(** X18. The random numbers decide the order of the deck and nothing
    else: two decks built from any two sources hold the same cards. *)
Theorem createDeck_same_cards (random random' : nat → draw) :
  createDeck random ≡ₚ createDeck random'.
Proof. by rewrite !createDeck_Permutation. Qed.

(** X19. Whatever [SUITS] and [RANKS] are, also with a suit or a rank
    listed twice, the deck has one card per pair of positions and no two
    cards share an id. *)
Theorem createDeck_ids_distinct (random : nat → draw) :
  length (createDeck random) = (length SUITS * length RANKS)%nat
  ∧ NoDup (card_id <$> createDeck random).
Proof.
  split.
  - by rewrite createDeck_Permutation,
      <- (length_fmap (λ c, (suit c, rank c))), ordered_deck_pairs,
      pairs_length.
  - rewrite createDeck_Permutation. apply ordered_deck_ids_NoDup.
Qed.

(** X20. The counter written in a card id is the place of the card in the
    order of the loops: the card of the suit at position [si] and the rank
    at position [ri] is in the deck under the id
    [card-(si * |RANKS| + ri)-rank-suit], whatever the shuffle. *)
Theorem createDeck_card_id (random : nat → draw) (si ri : nat)
    (s r : string) :
  SUITS !! si = Some s → RANKS !! ri = Some r →
  {| card_id := "card-" +:+ pretty (si * length RANKS + ri)%nat
                +:+ "-" +:+ r +:+ "-" +:+ s;
     suit := s; rank := r; value := RANK_VALUES r |}
  ∈ createDeck random.
Proof.
  intros Hs Hr. rewrite createDeck_Permutation.
  eapply list_elem_of_lookup_2. apply (ordered_deck_lookup si ri s r Hs Hr).
Qed.

(** X21. The cards of a deck are worth, together, the sum of the rank
    values once for every suit. *)
Theorem createDeck_total_value (random : nat → draw) :
  calculateHandValue (createDeck random) None
  = Z.of_nat (length SUITS) * sumZ (RANK_VALUES <$> RANKS).
Proof.
  rewrite calculateHandValue_contribution.
  change (contribution None) with value.
  rewrite (sumZ_Permutation _ (value <$> ordered_deck))
    by by rewrite createDeck_Permutation.
  by rewrite ordered_deck_values, sumZ_pairs.
Qed.

(** X22. With each suit and each rank listed once, a joker of a suit and a
    rank of the deck takes the value of its rank, once, off the total. *)
Theorem createDeck_joker_value (random : nat → draw) (j : CardData) :
  NoDup SUITS → NoDup RANKS → suit j ∈ SUITS → rank j ∈ RANKS →
  calculateHandValue (createDeck random) (Some j)
  = calculateHandValue (createDeck random) None - RANK_VALUES (rank j).
Proof.
  intros Hsuits Hranks Hs Hr.
  rewrite joker_zeroing_sum. f_equal.
  set (P := λ c, rank c = rank j ∧ suit c = suit j).
  assert (Hlen : length (filter P (createDeck random)) = 1%nat).
  { rewrite createDeck_Permutation.
    rewrite (list_filter_iff P (λ c, (suit c, rank c) = (suit j, rank j)))
      by (intros c; unfold P; split; [intros [-> ->]; done|by intros [= -> ->]]).
    rewrite (filter_fmap_length (λ c, (suit c, rank c))), ordered_deck_pairs.
    apply count_once; [by apply pairs_NoDup|].
    apply list_elem_of_bind. exists (suit j). split; [|done].
    by apply list_elem_of_fmap_2. }
  destruct (filter P (createDeck random)) as [|c [|? ?]] eqn:Hf;
    [done| |done].
  assert (c ∈ filter P (createDeck random)) as [[Hrank _] Hc]%list_elem_of_filter
    by (rewrite Hf; left).
  rewrite createDeck_Permutation in Hc.
  apply list_elem_of_lookup in Hc as [i Hi].
  apply ordered_deck_numbered in Hi. cbn [fmap list_fmap sumZ].
  rewrite Hi, value_new_card, Hrank. lia.
Qed.

End deck_more.

Lemma createDeck_card_id_witness :
  {| card_id := "card-" +:+ pretty (1 * length three_ranks + 2)%nat
                +:+ "-" +:+ "10" +:+ "-" +:+ "H";
     suit := "H"; rank := "10"; value := sample_values "10" |}
  ∈ createDeck two_suits three_ranks sample_values (λ _, half).
Proof.
  apply (createDeck_card_id two_suits three_ranks sample_values (λ _, half)
           1 2 "H" "10"); reflexivity.
Defined.

Lemma createDeck_joker_value_witness :
  calculateHandValue
    (createDeck two_suits three_ranks sample_values (λ _, half))
    (Some (card "joker" "7" "H" 0))
  = calculateHandValue
      (createDeck two_suits three_ranks sample_values (λ _, half)) None
    - sample_values (rank (card "joker" "7" "H" 0)).
Proof.
  apply (createDeck_joker_value two_suits three_ranks sample_values
           (λ _, half) (card "joker" "7" "H" 0));
    apply (bool_decide_unpack _); vm_compute; exact I.
Defined.
